(** * useCache: a TTL- and capacity-bounded in-memory cache

    Shallow embedding of the [useCache] hook (TypeScript).  The hook closes
    over two immutable configuration values ([ttlMs], [capacity]) and one
    mutable [Map<string, CacheEntry<V>>] held in [cacheRef.current].  The
    closure environment is modelled as a record that is passed explicitly.

    Every call of [now()] is an explicit argument: [get] reads the clock
    once, [set] twice (once in [pruneExpiredEntries], once in
    [getCacheEntry]), and the two readings of a [set] are independent.

    [ttlMs], [capacity] and [expiresAt] are JavaScript numbers: an
    integer, [Infinity], [-Infinity] or [NaN], with the comparisons and
    the addition JavaScript gives them.  Clock readings and entry counts
    are integers.

    The repository holds two revisions of the hook.  They agree, line for
    line, on every function modelled here; the later one adds [clear]. *)

From Stdlib Require Import ZArith List String Ascii Bool Lia Permutation.
From Stdlib Require Import DecimalString DecimalPos DecimalZ FinFun.
Import ListNotations.

Local Open Scope string_scope.
Local Open Scope Z_scope.

Set Implicit Arguments.
Set Warnings "-register-all".

(** ** JavaScript values used as cache keys *)

Module Js.

(** The fragment of JavaScript values that [JSON.stringify] serialises
    structurally.  [JNum z] is the integer-valued number [z], for [z]
    between [-2^53] and [2^53]: there every integer is a number of its
    own and is printed in plain decimal.  [JObj fs] lists the own
    enumerable properties in the order the engine enumerates them, which
    for names that are not array indices is insertion order. *)
Inductive JsValue : Type :=
| JUndefined
| JNull
| JBool (b : bool)
| JNum (z : Z)
| JStr (s : string)
| JArr (xs : list JsValue)
| JObj (fs : list (string * JsValue)).

Definition dquote : ascii := "034"%char.
Definition backslash : ascii := "092"%char.

Definition hex_digit (n : nat) : ascii :=
  match n with
  | 0%nat => "0" | 1%nat => "1" | 2%nat => "2" | 3%nat => "3"
  | 4%nat => "4" | 5%nat => "5" | 6%nat => "6" | 7%nat => "7"
  | 8%nat => "8" | 9%nat => "9" | 10%nat => "a" | 11%nat => "b"
  | 12%nat => "c" | 13%nat => "d" | 14%nat => "e" | _ => "f"
  end%char.

(** One code unit of [QuoteJSONString]. *)
Definition quote_char (c : ascii) : string :=
  let n := nat_of_ascii c in
  if Nat.eqb n 8 then String backslash "b"
  else if Nat.eqb n 9 then String backslash "t"
  else if Nat.eqb n 10 then String backslash "n"
  else if Nat.eqb n 12 then String backslash "f"
  else if Nat.eqb n 13 then String backslash "r"
  else if Nat.eqb n 34 then String backslash (String dquote EmptyString)
  else if Nat.eqb n 92 then String backslash (String backslash EmptyString)
  else if Nat.ltb n 32 then
    String backslash
      ("u00" ++ String (hex_digit (n / 16)) (String (hex_digit (n mod 16)) EmptyString))
  else String c EmptyString.

Fixpoint quote_body (s : string) : string :=
  match s with
  | EmptyString => EmptyString
  | String c rest => quote_char c ++ quote_body rest
  end.

Definition quote (s : string) : string :=
  String dquote (quote_body s ++ String dquote EmptyString).

(** The decimal form of an integer between [-2^53] and [2^53]. *)
Definition number_to_string (z : Z) : string :=
  NilZero.string_of_int (Z.to_int z).

Fixpoint join (sep : string) (parts : list string) : string :=
  match parts with
  | [] => EmptyString
  | [p] => p
  | p :: rest => p ++ sep ++ join sep rest
  end.

(** [JSON.stringify(value)] with no replacer and no indentation.  The
    result is [None] when JavaScript returns [undefined]. *)
Fixpoint JSON_stringify (v : JsValue) : option string :=
  match v with
  | JUndefined => None
  | JNull => Some "null"
  | JBool true => Some "true"
  | JBool false => Some "false"
  | JNum z => Some (number_to_string z)
  | JStr s => Some (quote s)
  | JArr xs =>
      Some ("[" ++ join ","
              (map (fun x => match JSON_stringify x with
                             | Some s => s
                             | None => "null"
                             end) xs) ++ "]")
  | JObj fs =>
      Some ("{" ++ join ","
              (flat_map (fun p => match JSON_stringify (snd p) with
                                  | Some s => [quote (fst p) ++ ":" ++ s]
                                  | None => []
                                  end) fs) ++ "}")
  end.

(** Two keys denote the same logical key when they agree up to the order
    in which object properties were inserted. *)
Inductive same_key : JsValue -> JsValue -> Prop :=
| same_refl v : same_key v v
| same_sym v w : same_key v w -> same_key w v
| same_trans u v w : same_key u v -> same_key v w -> same_key u w
| same_obj_perm fs gs : Permutation fs gs -> same_key (JObj fs) (JObj gs)
| same_obj_fields fs gs :
    Forall2 (fun p q => fst p = fst q /\ same_key (snd p) (snd q)) fs gs ->
    same_key (JObj fs) (JObj gs)
| same_arr xs ys : Forall2 same_key xs ys -> same_key (JArr xs) (JArr ys).

End Js.

Local Open Scope list_scope.


(** ** JavaScript numbers *)

(** The numbers [ttlMs], [capacity] and [expiresAt] can hold. *)
Inductive JsNum : Type :=
| NaN
| NegInfinity
| Finite (z : Z)
| Infinity.

Coercion Finite : Z >-> JsNum.

(** [a + b] *)
Definition num_add (a b : JsNum) : JsNum :=
  match a with
  | NaN => NaN
  | NegInfinity =>
      match b with
      | NaN | Infinity => NaN
      | _ => NegInfinity
      end
  | Finite x =>
      match b with
      | Finite y => Finite (x + y)
      | other => other
      end
  | Infinity =>
      match b with
      | NaN | NegInfinity => NaN
      | _ => Infinity
      end
  end.

(** [a < b]: false as soon as one side is [NaN]. *)
Definition num_lt (a b : JsNum) : bool :=
  match a with
  | NaN => false
  | NegInfinity =>
      match b with
      | Finite _ | Infinity => true
      | _ => false
      end
  | Finite x =>
      match b with
      | Finite y => x <? y
      | Infinity => true
      | _ => false
      end
  | Infinity => false
  end.

(** [a <= b]: false as soon as one side is [NaN]. *)
Definition num_le (a b : JsNum) : bool :=
  match a with
  | NaN => false
  | NegInfinity =>
      match b with
      | NaN => false
      | _ => true
      end
  | Finite x =>
      match b with
      | Finite y => x <=? y
      | Infinity => true
      | _ => false
      end
  | Infinity =>
      match b with
      | Infinity => true
      | _ => false
      end
  end.

(** ** The built-in [Map], keyed by canonical keys *)

(** A canonical key is what [getCacheKey] hands to the [Map]: the string
    produced by [JSON.stringify], or [None] for JavaScript's [undefined],
    which [JSON.stringify] returns for keys it cannot serialise. *)
Definition CacheKey : Type := option string.

Definition key_eqb (a b : CacheKey) : bool :=
  match a, b with
  | None, None => true
  | Some s, Some t => String.eqb s t
  | _, _ => false
  end.

(** [type CacheEntry<V> = { value: V; expiresAt: number }] *)
Record CacheEntry (V : Type) : Type := mkEntry {
  value : V;
  expiresAt : JsNum
}.

Section JsMap.
Variable E : Type.

(** Entries in insertion order, which is the order [for ... of] visits. *)
Definition JsMap : Type := list (CacheKey * E).

Definition Map_new : JsMap := [].

Definition Map_size (m : JsMap) : Z := Z.of_nat (List.length m).

Fixpoint Map_get (k : CacheKey) (m : JsMap) : option E :=
  match m with
  | [] => None
  | (k', e) :: rest => if key_eqb k k' then Some e else Map_get k rest
  end.

(** [set] on a key that is present replaces the value and keeps the
    position; on a new key it appends. *)
Fixpoint Map_set (k : CacheKey) (e : E) (m : JsMap) : JsMap :=
  match m with
  | [] => [(k, e)]
  | (k', e') :: rest =>
      if key_eqb k k' then (k, e) :: rest else (k', e') :: Map_set k e rest
  end.

Definition Map_delete (k : CacheKey) (m : JsMap) : JsMap :=
  filter (fun p => negb (key_eqb k (fst p))) m.

Definition Map_clear (m : JsMap) : JsMap := [].

(** A [Map] holds each key once. *)
Definition Map_wf (m : JsMap) : Prop := NoDup (map fst m).
End JsMap.

(** ** The hook *)

(** The test [if (soonestKey)] on a key the scan has picked: [undefined]
    and the empty string are falsy, every other string is truthy.
    ([null], the value [soonestKey] starts with, is falsy too; it is the
    [None] of [option CacheKey] in [evictEntryIfOverCapacity].) *)
Definition truthy (k : CacheKey) : bool :=
  match k with
  | None => false
  | Some EmptyString => false
  | Some (String _ _) => true
  end.

(** [interface UseCacheConfig { ttlMs?: number; capacity?: number }] *)
Record UseCacheConfig : Type := mkConfig {
  cfg_ttlMs : option JsNum;
  cfg_capacity : option JsNum
}.

Section Hook.
Variable V : Type.

Import Js.

(** The closure of one [useCache] call. *)
Record Cache : Type := mkCache {
  ttlMs : JsNum;
  capacity : JsNum;
  cacheRef : JsMap (CacheEntry V)
}.

Definition with_cacheRef (h : Cache) (m : JsMap (CacheEntry V)) : Cache :=
  {| ttlMs := ttlMs h; capacity := capacity h; cacheRef := m |}.

Definition useCache (config : UseCacheConfig) : Cache :=
  {| ttlMs := match cfg_ttlMs config with
              | Some t => t
              | None => Finite (5 * 60 * 1000)
              end;
     capacity := match cfg_capacity config with
                 | Some c => c
                 | None => Finite 100
                 end;
     cacheRef := Map_new _ |}.

Definition isExpired (now : Z) (entry : CacheEntry V) : bool :=
  num_le (expiresAt entry) (Finite now).

Definition getCacheKey (key : JsValue) : CacheKey := JSON_stringify key.

Definition getCacheEntry (h : Cache) (now : Z) (v : V) : CacheEntry V :=
  {| value := v; expiresAt := num_add (Finite now) (ttlMs h) |}.

(** The loop of [pruneExpiredEntries]: visit the entries in order and
    delete the visited key when its entry has expired. *)
Definition prune_step (time : Z) (cache : JsMap (CacheEntry V))
    (p : CacheKey * CacheEntry V) : JsMap (CacheEntry V) :=
  if num_le (expiresAt (snd p)) (Finite time)
  then Map_delete (fst p) cache else cache.

Definition pruneExpiredEntries (now : Z) (h : Cache) : Cache :=
  let cache := cacheRef h in
  let time := now in
  with_cacheRef h (fold_left (prune_step time) cache cache).

(** The loop of [evictEntryIfOverCapacity], on the pair
    [(soonestKey, soonestExpiry)]. *)
Definition scan_step (acc : option CacheKey * JsNum)
    (p : CacheKey * CacheEntry V) : option CacheKey * JsNum :=
  if num_lt (expiresAt (snd p)) (snd acc)
  then (Some (fst p), expiresAt (snd p))
  else acc.

Definition scan_soonest (cache : JsMap (CacheEntry V)) : option CacheKey * JsNum :=
  fold_left scan_step cache (None, Infinity).

Definition evictEntryIfOverCapacity (h : Cache) : Cache :=
  let cache := cacheRef h in
  if num_lt (Finite (Map_size cache)) (capacity h) then h
  else
    let soonestKey := fst (scan_soonest cache) in
    match soonestKey with
    | Some k => if truthy k then with_cacheRef h (Map_delete k cache) else h
    | None => h
    end.

Definition get (now : Z) (key : JsValue) (h : Cache) : option V * Cache :=
  let cache := cacheRef h in
  let cacheKey := getCacheKey key in
  match Map_get cacheKey cache with
  | None => (None, h)
  | Some cacheEntry =>
      if isExpired now cacheEntry
      then (None, with_cacheRef h (Map_delete cacheKey cache))
      else (Some (value cacheEntry), h)
  end.

(** [time] is the clock reading of [pruneExpiredEntries], [now] the one of
    [getCacheEntry]. *)
Definition set (time now : Z) (key : JsValue) (v : V) (h : Cache) : Cache :=
  let h1 := pruneExpiredEntries time h in
  let h2 := evictEntryIfOverCapacity h1 in
  let cache := cacheRef h2 in
  let cacheKey := getCacheKey key in
  let cacheEntry := getCacheEntry h2 now v in
  with_cacheRef h2 (Map_set cacheKey cacheEntry cache).

Definition clear (h : Cache) : Cache :=
  with_cacheRef h (Map_clear (cacheRef h)).

(** Calls made on one cache, each with the clock readings it sees. *)
Inductive Op : Type :=
| OpGet (now : Z) (key : JsValue)
| OpSet (time now : Z) (key : JsValue) (v : V)
| OpClear.

Definition step (h : Cache) (o : Op) : Cache :=
  match o with
  | OpGet now key => snd (get now key h)
  | OpSet time now key v => set time now key v h
  | OpClear => clear h
  end.

Definition run (ops : list Op) (h : Cache) : Cache := fold_left step ops h.

Definition op_key (o : Op) : option JsValue :=
  match o with
  | OpGet _ key => Some key
  | OpSet _ _ key _ => Some key
  | OpClear => None
  end.
End Hook.

Arguments OpGet {V} now key.
Arguments OpClear {V}.

(** ** Vocabulary of the properties *)

(** Every key stored in the map passes the test [if (soonestKey)]. *)
Definition all_truthy (E : Type) (m : JsMap E) : Prop :=
  Forall (fun p => truthy (fst p) = true) m.

(** The canonical form of [key] is a string. *)
Definition string_key (key : Js.JsValue) : Prop :=
  exists s, getCacheKey key = Some s.

(** The canonical form of [key] is a non-empty string. *)
Definition nonempty_string_key (key : Js.JsValue) : Prop :=
  exists c s, getCacheKey key = Some (String c s).

(** The string of [n] letters [a], and the key it makes: a supply of
    string keys with pairwise distinct canonical forms. *)
Fixpoint letters (n : nat) : string :=
  match n with
  | O => EmptyString
  | S m => String "a" (letters m)
  end.

Definition letters_key (n : nat) : Js.JsValue := Js.JStr (letters n).

Section Vocabulary.
Variable V : Type.

(** The scan can select the entry: its [expiresAt] is below [Infinity],
    the value [soonestExpiry] starts with. *)
Definition selectable (e : CacheEntry V) : bool :=
  num_lt (expiresAt e) Infinity.

(** Every stored [expiresAt] is below [Infinity]. *)
Definition all_selectable (m : JsMap (CacheEntry V)) : Prop :=
  Forall (fun p => selectable (snd p) = true) m.

(** [(k, e)] is the entry of [m] with the least [expiresAt], and the
    first such entry in iteration order: no entry before it has an
    [expiresAt] at or below its own, no entry after it one below its own;
    [l1] and [l2] are the entries before and after it. *)
Definition first_soonest (m l1 : JsMap (CacheEntry V)) (k : CacheKey)
    (e : CacheEntry V) (l2 : JsMap (CacheEntry V)) : Prop :=
  m = l1 ++ (k, e) :: l2 /\
  Forall (fun p => num_le (expiresAt (snd p)) (expiresAt e) = false) l1 /\
  Forall (fun p => num_lt (expiresAt (snd p)) (expiresAt e) = false) l2.

(** The size is within the capacity, or is at most one. *)
Definition within_capacity (h : Cache V) : Prop :=
  Map_size (cacheRef h) <= 1 \/
  num_lt (Finite (Map_size (cacheRef h) - 1)) (capacity h) = true.

(** The invariant kept by operations on truthy keys with a [ttlMs] below
    [Infinity]: distinct truthy keys, entries the scan can select, and a
    size within the capacity. *)
Definition bounded (h : Cache V) : Prop :=
  Map_wf (cacheRef h) /\ all_truthy (cacheRef h) /\
  all_selectable (cacheRef h) /\ within_capacity h.

(** No entry of the cache has expired at time [now]. *)
Definition nothing_expired (now : Z) (h : Cache V) : Prop :=
  Forall (fun p => isExpired now (snd p) = false) (cacheRef h).

(** Every operation is on a key whose canonical form is a non-empty
    string. *)
Definition op_key_ok (o : Op V) : Prop :=
  match op_key o with
  | Some key => nonempty_string_key key
  | None => True
  end.










(** The bound stated for [capacity <= 0]: on keys whose canonical form
    is a non-empty string the map holds at most one entry after every
    call. *)
Definition holds_at_most_one (h : Cache V) : Prop :=
  forall (ops : list (Op V)) (n : nat),
    Forall op_key_ok ops ->
    Map_size (cacheRef (run (firstn n ops) h)) <= 1.

(** The overwrite property as the specification words it: after
    [set(k, v1)] and [set(k, v2)] the count is what it was before the
    first call, and [get(k)] returns [v2]. *)
Definition overwrite_keeps_count (h : Cache V) (key : Js.JsValue)
    (v1 v2 : V) (t1 t2 : Z) : Prop :=
  let h2 := set t2 t2 key v2 (set t1 t1 key v1 h) in
  Map_size (cacheRef h2) = Map_size (cacheRef h) /\
  fst (get t2 key h2) = Some v2.
End Vocabulary.

(** Configurations and keys of the scenarios evaluated below. *)
Definition config_of (ttl cap : Z) : UseCacheConfig :=
  {| cfg_ttlMs := Some (Finite ttl); cfg_capacity := Some (Finite cap) |}.

(** [{ttlMs: Infinity, capacity: cap}] *)
Definition config_forever (cap : Z) : UseCacheConfig :=
  {| cfg_ttlMs := Some Infinity; cfg_capacity := Some (Finite cap) |}.

Definition default_config : UseCacheConfig :=
  {| cfg_ttlMs := None; cfg_capacity := None |}.

Definition key_a : Js.JsValue := Js.JStr "a".
Definition key_b : Js.JsValue := Js.JStr "b".
Definition key_c : Js.JsValue := Js.JStr "c".
Definition key_k : Js.JsValue := Js.JStr "k".
Definition key_x : Js.JsValue := Js.JStr "x".

(** [{a: 1, b: 2}] and [{b: 2, a: 1}]. *)
Definition key_ab : Js.JsValue :=
  Js.JObj [("a"%string, Js.JNum 1); ("b"%string, Js.JNum 2)].
Definition key_ba : Js.JsValue :=
  Js.JObj [("b"%string, Js.JNum 2); ("a"%string, Js.JNum 1)].

(** ** Vocabulary of the further properties *)

Section History.
Variable V : Type.

(** What a run of calls has last written under the canonical key [ck]:
    the entry of the latest [set] on a key with that canonical form. *)
Definition write_step (ttl : JsNum) (ck : CacheKey)
    (acc : option (CacheEntry V)) (o : Op V) : option (CacheEntry V) :=
  match o with
  | OpSet _ now key v =>
      if key_eqb (getCacheKey key) ck
      then Some {| value := v; expiresAt := num_add (Finite now) ttl |}
      else acc
  | _ => acc
  end.

Definition last_write (ttl : JsNum) (ck : CacheKey) (ops : list (Op V))
    : option (CacheEntry V) :=
  fold_left (write_step ttl ck) ops None.
End History.

(** The keys that are JavaScript primitives, with numbers in the range
    where every integer is a number of its own. *)
Definition primitive (key : Js.JsValue) : bool :=
  match key with
  | Js.JArr _ | Js.JObj _ => false
  | Js.JNum z => (- 2 ^ 53 <=? z) && (z <=? 2 ^ 53)
  | _ => true
  end.

Definition hex_value (c : ascii) : nat :=
  let n := nat_of_ascii c in
  if Nat.ltb n 58 then (n - 48)%nat else (n - 87)%nat.

(** Reads back the first code unit of a quoted string body; [None] at the
    closing quote. *)
Definition unquote_unit (s : string) : option (ascii * string) :=
  match s with
  | EmptyString => None
  | String c r =>
      if Ascii.eqb c Js.backslash then
        match r with
        | EmptyString => None
        | String d r1 =>
            if Ascii.eqb d "b" then Some (ascii_of_nat 8, r1)
            else if Ascii.eqb d "t" then Some (ascii_of_nat 9, r1)
            else if Ascii.eqb d "n" then Some (ascii_of_nat 10, r1)
            else if Ascii.eqb d "f" then Some (ascii_of_nat 12, r1)
            else if Ascii.eqb d "r" then Some (ascii_of_nat 13, r1)
            else if Ascii.eqb d Js.dquote then Some (Js.dquote, r1)
            else if Ascii.eqb d Js.backslash then Some (Js.backslash, r1)
            else
              match r1 with
              | String _ (String _ (String h1 (String h2 r2))) =>
                  Some (ascii_of_nat (16 * hex_value h1 + hex_value h2), r2)
              | _ => None
              end
        end
      else if Ascii.eqb c Js.dquote then None
      else Some (c, r)
  end.

(** ** Facts about the [Map] model *)

Unset Implicit Arguments.

Lemma key_eqb_eq (a b : CacheKey) : key_eqb a b = true <-> a = b.
Proof.
  destruct a as [s|], b as [t|]; simpl; split; intro H;
    try discriminate; try reflexivity.
  - apply String.eqb_eq in H. now subst.
  - injection H as ->. apply String.eqb_refl.
Qed.

Lemma key_eqb_refl (a : CacheKey) : key_eqb a a = true.
Proof. now apply key_eqb_eq. Qed.

Lemma key_eqb_neq (a b : CacheKey) : key_eqb a b = false <-> a <> b.
Proof.
  split.
  - intros H ->. rewrite key_eqb_refl in H. discriminate.
  - intro H. destruct (key_eqb a b) eqn:Hab; [|reflexivity].
    apply key_eqb_eq in Hab. contradiction.
Qed.

Ltac key_cases a b :=
  let Heq := fresh "Heq" in
  destruct (key_eqb a b) eqn:Heq;
  [apply key_eqb_eq in Heq | apply key_eqb_neq in Heq].

Section MapFacts.
Variable E : Type.
Implicit Types (m : JsMap E) (k : CacheKey) (e : E).

Lemma Map_get_set_same k e m : Map_get k (Map_set k e m) = Some e.
Proof.
  induction m as [|[k' e'] m IH]; simpl.
  - now rewrite key_eqb_refl.
  - key_cases k k'; simpl.
    + now rewrite key_eqb_refl.
    + apply key_eqb_neq in Heq. now rewrite Heq.
Qed.

Lemma Map_get_set_other k k' e m :
  k' <> k -> Map_get k' (Map_set k e m) = Map_get k' m.
Proof.
  intro Hne. induction m as [|[k0 e0] m IH]; simpl.
  - apply key_eqb_neq in Hne. now rewrite Hne.
  - key_cases k k0; simpl.
    + subst k0. apply key_eqb_neq in Hne. now rewrite Hne.
    + now rewrite IH.
Qed.

Lemma Map_get_delete_same k m : Map_get k (Map_delete k m) = None.
Proof.
  induction m as [|[k' e'] m IH]; simpl; [reflexivity|].
  key_cases k k'; simpl; [exact IH|].
  apply key_eqb_neq in Heq. now rewrite Heq.
Qed.

Lemma Map_get_delete_other k k' m :
  k' <> k -> Map_get k' (Map_delete k m) = Map_get k' m.
Proof.
  intro Hne. induction m as [|[k0 e0] m IH]; simpl; [reflexivity|].
  key_cases k k0; simpl.
  - subst k0. apply key_eqb_neq in Hne. now rewrite Hne.
  - now rewrite IH.
Qed.

Lemma Map_get_In k e m : Map_get k m = Some e -> In (k, e) m.
Proof.
  induction m as [|[k' e'] m IH]; simpl; [discriminate|].
  key_cases k k'.
  - intros [= ->]. subst. now left.
  - intro H. right. now apply IH.
Qed.

Lemma Map_get_None k m : Map_get k m = None <-> ~ In k (map fst m).
Proof.
  induction m as [|[k' e'] m IH]; simpl.
  - tauto.
  - key_cases k k'.
    + subst. split; [discriminate | intro H; exfalso; apply H; now left].
    + rewrite IH. split.
      * intros H [H1|H1]; [congruence | contradiction].
      * intros H H1. apply H. now right.
Qed.

Lemma In_Map_get k e m : Map_wf m -> In (k, e) m -> Map_get k m = Some e.
Proof.
  unfold Map_wf. induction m as [|[k' e'] m IH]; simpl; [contradiction|].
  intros Hnd [Hin|Hin].
  - injection Hin as -> ->. now rewrite key_eqb_refl.
  - inversion Hnd as [|? ? Hnot Hnd']; subst.
    key_cases k k'.
    + subst. exfalso. apply Hnot. apply in_map_iff. now exists (k', e).
    + now apply IH.
Qed.

Lemma In_Map_delete p k m : In p (Map_delete k m) <-> In p m /\ fst p <> k.
Proof.
  unfold Map_delete. rewrite filter_In. split; intros [H1 H2]; split; auto.
  - apply Bool.negb_true_iff, key_eqb_neq in H2. congruence.
  - apply Bool.negb_true_iff, key_eqb_neq. congruence.
Qed.

Lemma Map_delete_absent k m : Map_get k m = None -> Map_delete k m = m.
Proof.
  induction m as [|[k' e'] m IH]; simpl; [reflexivity|].
  key_cases k k'; [discriminate|].
  intro H. simpl. now rewrite IH.
Qed.

Lemma keys_filter_incl (f : CacheKey * E -> bool) m x :
  In x (map fst (filter f m)) -> In x (map fst m).
Proof.
  rewrite !in_map_iff. intros [p [Hp Hin]]. exists p. split; [exact Hp|].
  now apply filter_In in Hin.
Qed.

Lemma Map_wf_filter (f : CacheKey * E -> bool) m :
  Map_wf m -> Map_wf (filter f m).
Proof.
  unfold Map_wf. induction m as [|p m IH]; simpl; intro Hnd; [constructor|].
  inversion Hnd as [|? ? Hnot Hnd']; subst.
  destruct (f p); simpl; auto.
  constructor; auto.
  intro Hin. apply Hnot. eapply keys_filter_incl; eauto.
Qed.

Lemma Map_wf_delete k m : Map_wf m -> Map_wf (Map_delete k m).
Proof. apply Map_wf_filter. Qed.

Lemma keys_Map_set k e m x :
  In x (map fst (Map_set k e m)) <-> x = k \/ In x (map fst m).
Proof.
  induction m as [|[k' e'] m IH]; simpl.
  - intuition.
  - key_cases k k'; simpl.
    + subst. intuition.
    + rewrite IH. intuition.
Qed.

Lemma Map_wf_set k e m : Map_wf m -> Map_wf (Map_set k e m).
Proof.
  unfold Map_wf. induction m as [|[k' e'] m IH]; simpl; intro Hnd.
  - constructor; [intros []|constructor].
  - inversion Hnd as [|? ? Hnot Hnd']; subst.
    key_cases k k'; simpl.
    + subst. now constructor.
    + constructor; auto.
      rewrite keys_Map_set. intros [H|H]; [congruence|contradiction].
Qed.

Lemma length_Map_set k e m :
  List.length (Map_set k e m) =
  match Map_get k m with
  | Some _ => List.length m
  | None => S (List.length m)
  end.
Proof.
  induction m as [|[k' e'] m IH]; simpl; [reflexivity|].
  key_cases k k'; simpl; [reflexivity|].
  rewrite IH. now destruct (Map_get k m).
Qed.

Lemma length_Map_delete k e m :
  Map_wf m -> Map_get k m = Some e ->
  S (List.length (Map_delete k m)) = List.length m.
Proof.
  unfold Map_wf. induction m as [|[k' e'] m IH]; simpl; [discriminate|].
  intros Hnd. inversion Hnd as [|? ? Hnot Hnd']; subst.
  key_cases k k'; simpl.
  - subst. intros _. f_equal.
    fold (Map_delete k' m). rewrite Map_delete_absent; [reflexivity|].
    now apply Map_get_None.
  - intro H. f_equal. now apply IH.
Qed.

Lemma length_Map_delete_le k m :
  (List.length (Map_delete k m) <= List.length m)%nat.
Proof. apply filter_length_le. Qed.
End MapFacts.

(** ** Facts about JavaScript's comparisons *)

Ltac num_cases :=
  repeat match goal with
         | x : JsNum |- _ => destruct x
         end;
  simpl in *; try discriminate; try reflexivity;
  repeat match goal with
         | H : (_ <? _) = true |- _ => apply Z.ltb_lt in H
         | H : (_ <? _) = false |- _ => apply Z.ltb_ge in H
         | H : (_ <=? _) = true |- _ => apply Z.leb_le in H
         | H : (_ <=? _) = false |- _ => apply Z.leb_gt in H
         end;
  try match goal with
      | |- (_ <? _) = true => apply Z.ltb_lt
      | |- (_ <? _) = false => apply Z.ltb_ge
      | |- (_ <=? _) = true => apply Z.leb_le
      | |- (_ <=? _) = false => apply Z.leb_gt
      end;
  try lia.

Lemma num_lt_not_le (a b : JsNum) : num_lt a b = true -> num_le b a = false.
Proof. intro H. num_cases. Qed.

Lemma num_le_not_lt (a b : JsNum) : num_le a b = true -> num_lt b a = false.
Proof. intro H. num_cases. Qed.

Lemma num_lt_trans (a b c : JsNum) :
  num_lt a b = true -> num_lt b c = true -> num_lt a c = true.
Proof. intros H1 H2. num_cases. Qed.

Lemma num_lt_below (a b : JsNum) : num_lt a b = true -> num_lt a Infinity = true.
Proof. intro H. num_cases. Qed.

(** An entry passed over by the scan is not at or below one selected
    later. *)
Lemma num_skipped (x e s : JsNum) :
  num_lt x s = false -> num_lt e s = true -> num_le x e = false.
Proof. intros H1 H2. num_cases. Qed.

Lemma num_le_mono (x : JsNum) (a b : Z) :
  a <= b -> num_le x (Finite a) = true -> num_le x (Finite b) = true.
Proof. intros Hab H. num_cases. Qed.

Lemma num_le_max (x : JsNum) (a b : Z) :
  num_le x (Finite (Z.max a b)) =
  num_le x (Finite a) || num_le x (Finite b).
Proof.
  destruct x; simpl; try reflexivity.
  destruct (Z.leb_spec z a), (Z.leb_spec z b), (Z.leb_spec z (Z.max a b));
    simpl; try reflexivity; lia.
Qed.

(** A stamp [now + ttlMs] is below [Infinity] when [ttlMs] is. *)
Lemma stamp_below_infinity (now : Z) (ttl : JsNum) :
  num_lt ttl Infinity = true ->
  num_lt (num_add (Finite now) ttl) Infinity = true.
Proof. intro H. num_cases. Qed.

(** A stamp with a positive [ttlMs] has not expired at a reading that is
    not later than the stamping one. *)
Lemma stamp_live (time now : Z) (ttl : JsNum) :
  num_lt (Finite 0) ttl = true -> time <= now ->
  num_le (num_add (Finite now) ttl) (Finite time) = false.
Proof. intros H Hle. num_cases. Qed.


(** A stamp with a [ttlMs] that is not positive has expired at every
    reading from the stamping one on. *)
Lemma stamp_dead (now later : Z) (ttl : JsNum) :
  num_le ttl (Finite 0) = true -> now <= later ->
  num_le (num_add (Finite now) ttl) (Finite later) = true.
Proof. intros H Hle. num_cases. Qed.

(** ** The two loops of [set] *)

Lemma filter_twice (A : Type) (f g : A -> bool) (l : list A) :
  filter f (filter g l) = filter (fun x => g x && f x) l.
Proof.
  induction l as [|x l IH]; simpl; [reflexivity|].
  destruct (g x); simpl; [destruct (f x)|]; now rewrite IH.
Qed.

Section LoopFacts.
Variable V : Type.
Implicit Types (m l : JsMap (CacheEntry V)) (p q : CacheKey * CacheEntry V).

(** An entry survives the prune loop unless the loop visits an expired
    entry stored under its key. *)
Lemma prune_loop time l m :
  fold_left (prune_step time) l m =
  filter (fun p => negb (existsb (fun q => key_eqb (fst q) (fst p)
                                           && isExpired time (snd q)) l)) m.
Proof.
  revert m. induction l as [|q l IH]; intro m; simpl.
  - symmetry. apply forallb_filter_id. now apply forallb_forall.
  - rewrite IH. unfold prune_step, isExpired.
    destruct (num_le (expiresAt (snd q)) (Finite time)).
    + unfold Map_delete. rewrite filter_twice. apply filter_ext.
      intro p. rewrite Bool.andb_true_r. now rewrite Bool.negb_orb.
    + apply filter_ext. intro p. now rewrite Bool.andb_false_r.
Qed.

(** [pruneExpiredEntries] deletes exactly the expired entries and keeps
    the others in their order. *)
Lemma prune_filter time m :
  Map_wf m ->
  fold_left (prune_step time) m m =
  filter (fun p => negb (isExpired time (snd p))) m.
Proof.
  intro Hwf. rewrite prune_loop. apply filter_ext_in.
  intros [k e] Hin. f_equal. simpl.
  destruct (isExpired time e) eqn:Hexp.
  - apply existsb_exists. exists (k, e). split; [exact Hin|].
    simpl. now rewrite key_eqb_refl, Hexp.
  - destruct (existsb _ m) eqn:Hex; [|reflexivity].
    apply existsb_exists in Hex. destruct Hex as [[k' e'] [Hin' Hq]].
    simpl in Hq. apply Bool.andb_true_iff in Hq. destruct Hq as [Hk He].
    apply key_eqb_eq in Hk. subst k'.
    assert (H1 : Map_get k m = Some e) by now apply In_Map_get.
    assert (H2 : Map_get k m = Some e') by now apply In_Map_get.
    rewrite H1 in H2. injection H2 as <-. congruence.
Qed.

(** What the eviction scan holds after visiting [l], started from
    [(sk, se)]: either nothing in [l] was below [se], or it holds the
    first entry of [l] whose [expiresAt] is least. *)
Lemma scan_loop l (sk : option CacheKey) (se : JsNum) :
  (Forall (fun p => num_lt (expiresAt (snd p)) se = false) l /\
   fold_left (@scan_step V) l (sk, se) = (sk, se))
  \/
  (exists l1 k e l2,
      first_soonest l l1 k e l2 /\
      num_lt (expiresAt e) se = true /\
      fold_left (@scan_step V) l (sk, se) = (Some k, expiresAt e)).
Proof.
  unfold first_soonest.
  revert sk se. induction l as [|[k0 e0] l IH]; intros sk se.
  - left. split; [constructor | reflexivity].
  - simpl.
    change (scan_step (sk, se) (k0, e0))
      with (if num_lt (expiresAt e0) se
            then (Some k0, expiresAt e0) else (sk, se)).
    destruct (num_lt (expiresAt e0) se) eqn:Hlt.
    + right.
      destruct (IH (Some k0) (expiresAt e0))
        as [[Hall Hfold] | (l1 & k & e & l2 & (-> & H1 & H2) & Hlt' & Hfold)].
      * exists [], k0, e0, l. repeat split; auto.
      * exists ((k0, e0) :: l1), k, e, l2.
        split; [|split; [|exact Hfold]].
        -- split; [reflexivity|]. split; [|exact H2].
           constructor; [|exact H1]. simpl. now apply num_lt_not_le.
        -- now apply num_lt_trans with (b := expiresAt e0).
    + destruct (IH sk se)
        as [[Hall Hfold] | (l1 & k & e & l2 & (-> & H1 & H2) & Hlt' & Hfold)].
      * left. split; [|exact Hfold]. now constructor.
      * right. exists ((k0, e0) :: l1), k, e, l2.
        split; [|split; [exact Hlt' | exact Hfold]].
        split; [reflexivity|]. split; [|exact H2].
        constructor; [|exact H1]. simpl. now apply num_skipped with (s := se).
Qed.

(** When some entry is below [Infinity] the scan ends on the first entry
    with the least [expiresAt]. *)
Lemma scan_soonest_pick m :
  Exists (fun p => selectable (snd p) = true) m ->
  exists l1 k e l2,
    first_soonest m l1 k e l2 /\ selectable e = true /\
    scan_soonest m = (Some k, expiresAt e).
Proof.
  intro Hex. unfold scan_soonest.
  destruct (scan_loop m None Infinity)
    as [[Hall _] | (l1 & k & e & l2 & Hfirst & Hlt & Hfold)].
  - exfalso. apply Exists_exists in Hex. destruct Hex as (p & Hin & Hp).
    rewrite Forall_forall in Hall. specialize (Hall p Hin).
    unfold selectable in Hp. congruence.
  - exists l1, k, e, l2. auto.
Qed.

(** When no entry is below [Infinity], in particular on the empty map,
    [soonestKey] stays [null]. *)
Lemma scan_soonest_none m :
  Forall (fun p => selectable (snd p) = false) m ->
  scan_soonest m = (None, Infinity).
Proof.
  intro Hall. unfold scan_soonest.
  destruct (scan_loop m None Infinity)
    as [[_ Hfold] | (l1 & k & e & l2 & (-> & _) & Hlt & _)]; [exact Hfold|].
  exfalso. apply Forall_app in Hall. destruct Hall as [_ Hall].
  inversion Hall as [|? ? He _]; subst. unfold selectable in He.
  simpl in He. congruence.
Qed.

(** A first entry that nothing later undercuts is what the scan ends on
    when it is below [Infinity]; when it is not, and nothing later is
    either, the scan ends on nothing. *)
Lemma scan_head k (e : CacheEntry V) rest :
  Forall (fun p => num_lt (expiresAt (snd p)) (expiresAt e) = false) rest ->
  (selectable e = false ->
   Forall (fun p => selectable (snd p) = false) rest) ->
  scan_soonest ((k, e) :: rest) =
  (if selectable e then (Some k, expiresAt e) else (None, Infinity)).
Proof.
  intros Hle Hnone. unfold scan_soonest. simpl.
  change (scan_step (None, Infinity) (k, e))
    with (if selectable e then (Some k, expiresAt e) else (None, Infinity)).
  destruct (selectable e) eqn:Hsel.
  - destruct (scan_loop rest (Some k) (expiresAt e))
      as [[_ Hfold] | (l1 & k' & e' & l3 & (-> & _) & Hlt & _)]; [exact Hfold|].
    exfalso. apply Forall_app in Hle. destruct Hle as [_ Hle].
    inversion Hle as [|? ? Hhead _]; subst. simpl in Hhead. congruence.
  - apply (scan_soonest_none rest). now apply Hnone.
Qed.
End LoopFacts.

(** ** Facts about the operations of the hook *)

Section HookFacts.
Variable V : Type.
Implicit Types (h : Cache V) (m : JsMap (CacheEntry V)).

Lemma with_cacheRef_same h : with_cacheRef h (cacheRef h) = h.
Proof. now destruct h. Qed.

Lemma cacheRef_prune now h :
  Map_wf (cacheRef h) ->
  cacheRef (pruneExpiredEntries now h) =
  filter (fun p => negb (isExpired now (snd p))) (cacheRef h).
Proof. intro Hwf. simpl. now apply prune_filter. Qed.

Lemma prune_nothing now h :
  Map_wf (cacheRef h) -> nothing_expired now h ->
  pruneExpiredEntries now h = h.
Proof.
  intros Hwf Hlive. unfold pruneExpiredEntries.
  rewrite (prune_filter V now (cacheRef h) Hwf).
  rewrite forallb_filter_id; [apply with_cacheRef_same|].
  apply forallb_forall. intros p Hin.
  unfold nothing_expired in Hlive. rewrite Forall_forall in Hlive.
  now rewrite (Hlive p Hin).
Qed.

Lemma prune_wf now h :
  Map_wf (cacheRef h) -> Map_wf (cacheRef (pruneExpiredEntries now h)).
Proof. intro Hwf. rewrite cacheRef_prune by exact Hwf. now apply Map_wf_filter. Qed.

Lemma prune_length now h :
  Map_wf (cacheRef h) ->
  (List.length (cacheRef (pruneExpiredEntries now h))
   <= List.length (cacheRef h))%nat.
Proof. intro Hwf. rewrite cacheRef_prune by exact Hwf. apply filter_length_le. Qed.

Lemma all_truthy_filter (f : CacheKey * CacheEntry V -> bool) m :
  all_truthy m -> all_truthy (filter f m).
Proof.
  unfold all_truthy. rewrite !Forall_forall. intros H p Hin.
  apply H. now apply filter_In in Hin.
Qed.

Lemma all_selectable_filter (f : CacheKey * CacheEntry V -> bool) m :
  all_selectable m -> all_selectable (filter f m).
Proof.
  unfold all_selectable. rewrite !Forall_forall. intros H p Hin.
  apply H. now apply filter_In in Hin.
Qed.

Lemma all_truthy_set k (e : CacheEntry V) m :
  truthy k = true -> all_truthy m -> all_truthy (Map_set k e m).
Proof.
  intros Hk. unfold all_truthy. induction m as [|[k' e'] m IH]; simpl; intro H.
  - now constructor.
  - inversion H as [|? ? Hp Hm]; subst.
    destruct (key_eqb k k'); constructor; auto.
Qed.

Lemma all_selectable_set k (e : CacheEntry V) m :
  selectable e = true -> all_selectable m -> all_selectable (Map_set k e m).
Proof.
  intros Hk. unfold all_selectable.
  induction m as [|[k' e'] m IH]; simpl; intro H.
  - now constructor.
  - inversion H as [|? ? Hp Hm]; subst.
    destruct (key_eqb k k'); constructor; auto.
Qed.

Lemma evict_below h :
  num_lt (Finite (Map_size (cacheRef h))) (capacity h) = true ->
  evictEntryIfOverCapacity h = h.
Proof. intro Hlt. unfold evictEntryIfOverCapacity. now rewrite Hlt. Qed.

(** Nothing is evicted when no stored entry is below [Infinity], whatever
    the size and the capacity. *)
Lemma evict_none h :
  Forall (fun p => selectable (snd p) = false) (cacheRef h) ->
  evictEntryIfOverCapacity h = h.
Proof.
  intro Hall. unfold evictEntryIfOverCapacity.
  destruct (num_lt (Finite (Map_size (cacheRef h))) (capacity h));
    [reflexivity|].
  now rewrite (scan_soonest_none V _ Hall).
Qed.

Lemma evict_empty h : cacheRef h = [] -> evictEntryIfOverCapacity h = h.
Proof. intro He. apply evict_none. rewrite He. constructor. Qed.

(** Not under capacity, with some entry below [Infinity]: the scan picks
    the first entry with the least [expiresAt]; it is deleted when its key
    is truthy and kept otherwise. *)
Lemma evict_full h :
  num_lt (Finite (Map_size (cacheRef h))) (capacity h) = false ->
  Exists (fun p => selectable (snd p) = true) (cacheRef h) ->
  exists l1 k e l2,
    first_soonest (cacheRef h) l1 k e l2 /\ selectable e = true /\
    evictEntryIfOverCapacity h =
    (if truthy k then with_cacheRef h (Map_delete k (cacheRef h)) else h).
Proof.
  intros Hcap Hex.
  destruct (scan_soonest_pick V _ Hex) as (l1 & k & e & l2 & Hfirst & Hsel & Hs).
  exists l1, k, e, l2. repeat split; try apply Hfirst; auto.
  unfold evictEntryIfOverCapacity. rewrite Hcap, Hs. reflexivity.
Qed.

(** A falsy key at the head of the map, with nothing later below its
    [expiresAt], is never deleted, and nothing else is, whatever the size
    and the capacity. *)
Lemma evict_skips_falsy_key h k e rest :
  cacheRef h = (k, e) :: rest ->
  truthy k = false ->
  Forall (fun p => num_le (expiresAt e) (expiresAt (snd p)) = true) rest ->
  evictEntryIfOverCapacity h = h.
Proof.
  intros Hm Hk Hle. unfold evictEntryIfOverCapacity.
  destruct (num_lt (Finite (Map_size (cacheRef h))) (capacity h));
    [reflexivity|].
  rewrite Hm, (scan_head V k e rest).
  - destruct (selectable e); simpl; [now rewrite Hk | reflexivity].
  - eapply Forall_impl; [|exact Hle]. intros p Hp. now apply num_le_not_lt.
  - intro Hsel. eapply Forall_impl; [|exact Hle]. intros p Hp.
    unfold selectable in *.
    destruct (expiresAt e), (expiresAt (snd p)); simpl in *; congruence.
Qed.

Lemma evict_cases h :
  evictEntryIfOverCapacity h = h \/
  exists k e, In (k, e) (cacheRef h) /\
    evictEntryIfOverCapacity h = with_cacheRef h (Map_delete k (cacheRef h)).
Proof.
  unfold evictEntryIfOverCapacity.
  destruct (num_lt (Finite (Map_size (cacheRef h))) (capacity h));
    [now left|].
  unfold scan_soonest.
  destruct (scan_loop V (cacheRef h) None Infinity)
    as [[_ Hfold] | (l1 & k & e & l2 & (Hm & _) & _ & Hfold)];
    rewrite Hfold; simpl; [now left|].
  destruct (truthy k); [right | now left].
  exists k, e. split; [|reflexivity].
  rewrite Hm. apply in_or_app. right. now left.
Qed.

Lemma evict_config h :
  ttlMs (evictEntryIfOverCapacity h) = ttlMs h /\
  capacity (evictEntryIfOverCapacity h) = capacity h.
Proof.
  destruct (evict_cases h) as [-> | (k & e & _ & ->)]; now split.
Qed.

Lemma evict_wf h :
  Map_wf (cacheRef h) -> Map_wf (cacheRef (evictEntryIfOverCapacity h)).
Proof.
  intro Hwf. destruct (evict_cases h) as [-> | (k & e & _ & ->)]; [exact Hwf|].
  simpl. now apply Map_wf_delete.
Qed.

Lemma evict_all_truthy h :
  all_truthy (cacheRef h) -> all_truthy (cacheRef (evictEntryIfOverCapacity h)).
Proof.
  intro Ht. destruct (evict_cases h) as [-> | (k & e & _ & ->)]; [exact Ht|].
  simpl. now apply all_truthy_filter.
Qed.

Lemma evict_all_selectable h :
  all_selectable (cacheRef h) ->
  all_selectable (cacheRef (evictEntryIfOverCapacity h)).
Proof.
  intro Ht. destruct (evict_cases h) as [-> | (k & e & _ & ->)]; [exact Ht|].
  simpl. now apply all_selectable_filter.
Qed.

Lemma evict_length_le h :
  (List.length (cacheRef (evictEntryIfOverCapacity h))
   <= List.length (cacheRef h))%nat.
Proof.
  destruct (evict_cases h) as [-> | (k & e & _ & ->)]; [lia|].
  simpl. apply length_Map_delete_le.
Qed.

Lemma set_config time now key v h :
  ttlMs (set time now key v h) = ttlMs h /\
  capacity (set time now key v h) = capacity h.
Proof.
  unfold set. simpl.
  destruct (evict_config (pruneExpiredEntries time h)) as [-> ->]. now split.
Qed.

Lemma set_wf time now key v h :
  Map_wf (cacheRef h) -> Map_wf (cacheRef (set time now key v h)).
Proof.
  intro Hwf. unfold set. simpl. apply Map_wf_set, evict_wf, prune_wf, Hwf.
Qed.

Lemma get_cases now key h :
  snd (get now key h) = h \/
  snd (get now key h) = with_cacheRef h (Map_delete (getCacheKey key) (cacheRef h)).
Proof.
  unfold get. destruct (Map_get _ _) as [e|]; [|now left].
  destruct (isExpired now e); [now right | now left].
Qed.

Lemma get_wf now key h :
  Map_wf (cacheRef h) -> Map_wf (cacheRef (snd (get now key h))).
Proof.
  intro Hwf. destruct (get_cases now key h) as [-> | ->]; [exact Hwf|].
  simpl. now apply Map_wf_delete.
Qed.

Lemma step_wf h (o : Op V) :
  Map_wf (cacheRef h) -> Map_wf (cacheRef (step h o)).
Proof.
  intro Hwf. destruct o as [now key | time now key v |].
  - simpl. now apply get_wf.
  - now apply (set_wf time now key v h).
  - constructor.
Qed.

Lemma step_config h (o : Op V) :
  ttlMs (step h o) = ttlMs h /\ capacity (step h o) = capacity h.
Proof.
  destruct o as [now key | time now key v |].
  - simpl. destruct (get_cases now key h) as [-> | ->]; now split.
  - exact (set_config time now key v h).
  - now split.
Qed.

Lemma run_app (ops1 ops2 : list (Op V)) h :
  run (ops1 ++ ops2) h = run ops2 (run ops1 h).
Proof. apply fold_left_app. Qed.

Lemma run_wf (ops : list (Op V)) h :
  Map_wf (cacheRef h) -> Map_wf (cacheRef (run ops h)).
Proof.
  revert h. induction ops as [|o ops IH]; intros h Hwf; simpl; [exact Hwf|].
  apply IH. now apply step_wf.
Qed.

Lemma run_config (ops : list (Op V)) h :
  ttlMs (run ops h) = ttlMs h /\ capacity (run ops h) = capacity h.
Proof.
  revert h. induction ops as [|o ops IH]; intro h; simpl; [now split|].
  destruct (IH (step h o)) as [-> ->]. apply step_config.
Qed.

Lemma useCache_wf config : Map_wf (cacheRef (useCache V config)).
Proof. constructor. Qed.
End HookFacts.

(** ** Reading and writing one key *)

Section GetSet.
Variable V : Type.
Implicit Types (h : Cache V) (key : Js.JsValue).

Lemma cacheRef_set time now key v h :
  cacheRef (set time now key v h) =
  Map_set (getCacheKey key)
          {| value := v; expiresAt := num_add (Finite now) (ttlMs h) |}
          (cacheRef (evictEntryIfOverCapacity (pruneExpiredEntries time h))).
Proof.
  unfold set, getCacheEntry. simpl.
  destruct (evict_config V (pruneExpiredEntries time h)) as [-> _]. reflexivity.
Qed.

Lemma lookup_after_set time now key v h :
  Map_get (getCacheKey key) (cacheRef (set time now key v h)) =
  Some {| value := v; expiresAt := num_add (Finite now) (ttlMs h) |}.
Proof. rewrite cacheRef_set. apply Map_get_set_same. Qed.

Lemma get_absent now key h :
  Map_get (getCacheKey key) (cacheRef h) = None -> get now key h = (None, h).
Proof. intro H. unfold get. now rewrite H. Qed.

Lemma get_live now key h e :
  Map_get (getCacheKey key) (cacheRef h) = Some e ->
  isExpired now e = false ->
  get now key h = (Some (value e), h).
Proof. intros H Hlive. unfold get. now rewrite H, Hlive. Qed.

Lemma get_expired now key h e :
  Map_get (getCacheKey key) (cacheRef h) = Some e ->
  isExpired now e = true ->
  get now key h =
  (None, with_cacheRef h (Map_delete (getCacheKey key) (cacheRef h))).
Proof. intros H Hexp. unfold get. now rewrite H, Hexp. Qed.

Lemma set_then_get h key v (time t t' : Z) :
  num_lt (Finite t') (num_add (Finite t) (ttlMs h)) = true ->
  fst (get t' key (set time t key v h)) = Some v.
Proof.
  intro Hlt.
  rewrite (get_live t' key (set time t key v h) _
             (lookup_after_set time t key v h)).
  - reflexivity.
  - unfold isExpired. cbn [expiresAt value]. now apply num_lt_not_le.
Qed.

(** C2: with a positive TTL, [set(k, v)] stamped at time [t] followed by
    [get(k)] at a time [t'] with [t <= t' < t + ttlMs] (no time, or less
    than the TTL, has passed) returns [v]; the clock reading the [set]
    pruned with plays no part. *)
Theorem C2_set_then_get h key v (time t t' : Z) :
  num_lt (Finite 0) (ttlMs h) = true ->
  t <= t' /\ num_lt (Finite t') (num_add (Finite t) (ttlMs h)) = true ->
  fst (get t' key (set time t key v h)) = Some v.
Proof.
  intros Hpos [Hge Hlt].
  pose proof (lookup_after_set time t key v h) as Hstored.
  unfold get. rewrite Hstored. unfold isExpired. cbn [expiresAt value].
  assert (Hlive : num_le (num_add (Finite t) (ttlMs h)) (Finite t') = false)
    by now apply num_lt_not_le.
  now rewrite Hlive.
Qed.

(** C3: [set(k, v)] stamped at time [t] stores [v] under [k] with expiry
    [t + ttlMs].  In every later state [h'] of the cache where that
    entry is still the one stored under [k] (it was neither evicted nor
    overwritten), [get(k)] at a time [t' >= t + ttlMs] is absent and
    deletes the entry, and [get(k)] at a time in [[t, t + ttlMs)] returns
    [v] and leaves the cache as it is. *)
Theorem C3_expiry h h' key v (time t t' : Z) :
  Map_get (getCacheKey key) (cacheRef h') =
    Map_get (getCacheKey key) (cacheRef (set time t key v h)) ->
  (num_le (num_add (Finite t) (ttlMs h)) (Finite t') = true ->
     fst (get t' key h') = None /\
     cacheRef (snd (get t' key h')) =
       Map_delete (getCacheKey key) (cacheRef h') /\
     Map_get (getCacheKey key) (cacheRef (snd (get t' key h'))) = None)
  /\
  (t <= t' /\ num_lt (Finite t') (num_add (Finite t) (ttlMs h)) = true ->
     get t' key h' = (Some v, h')).
Proof.
  rewrite lookup_after_set. intro Hstored. split.
  - intro Hle. rewrite (get_expired t' key h' _ Hstored) by exact Hle.
    simpl. repeat split. apply Map_get_delete_same.
  - intros [_ Hlt]. rewrite (get_live t' key h' _ Hstored); [reflexivity|].
    unfold isExpired. cbn [expiresAt value]. now apply num_lt_not_le.
Qed.

(** C5: [clear] is total and empties the map whatever it holds;
    afterwards [get] is absent for every key, and a [set] followed by a
    [get] before expiry returns the value set. *)
Theorem C5_clear h :
  cacheRef (clear h) = []
  /\ ttlMs (clear h) = ttlMs h
  /\ capacity (clear h) = capacity h
  /\ (forall now key, get now key (clear h) = (None, clear h))
  /\ (forall key v time t t',
        t <= t' /\ num_lt (Finite t') (num_add (Finite t) (ttlMs h)) = true ->
        fst (get t' key (set time t key v (clear h))) = Some v).
Proof.
  repeat split.
  intros key v time t t' [_ Ht]. now apply set_then_get.
Qed.

End GetSet.

(** ** Canonical keys produced by [JSON.stringify] *)

Lemma number_to_string_nonempty (z : Z) :
  exists c s, Js.number_to_string z = String c s.
Proof.
  unfold Js.number_to_string.
  destruct (Z.to_int z) as [d|d]; destruct d; simpl; eauto.
Qed.

(** [JSON.stringify] never returns the empty string. *)
Lemma string_key_nonempty (key : Js.JsValue) :
  string_key key -> nonempty_string_key key.
Proof.
  unfold string_key, nonempty_string_key, getCacheKey.
  intros [s Hs]. destruct key as [| |b|z|t|xs|fs]; simpl in *.
  - discriminate.
  - eauto.
  - destruct b; eauto.
  - destruct (number_to_string_nonempty z) as (c & r & ->). eauto.
  - unfold Js.quote. eauto.
  - eauto.
  - eauto.
Qed.

Lemma nonempty_string_key_truthy (key : Js.JsValue) :
  nonempty_string_key key <-> truthy (getCacheKey key) = true.
Proof.
  unfold nonempty_string_key. split.
  - intros (c & s & ->). reflexivity.
  - destruct (getCacheKey key) as [[|c s]|]; simpl; try discriminate. eauto.
Qed.

Lemma string_app_assoc (a b c : string) :
  ((a ++ b) ++ c)%string = (a ++ (b ++ c))%string.
Proof. induction a as [|x a IH]; simpl; [reflexivity | now rewrite IH]. Qed.





Lemma letters_key_string (i : nat) : getCacheKey (letters_key i) <> None.
Proof. discriminate. Qed.

(** ** The size of the map when the scan can do its work *)

Lemma num_lt_mono_left (a b : Z) (c : JsNum) :
  b <= a -> num_lt (Finite a) c = true -> num_lt (Finite b) c = true.
Proof. intros Hab H. num_cases. Qed.

Lemma num_nonpositive_full (s : Z) (c : JsNum) :
  num_le c (Finite 0) = true -> 0 <= s -> num_lt (Finite s) c = false.
Proof. intros H Hs. num_cases. Qed.

Lemma num_nonpositive_within (s : Z) (c : JsNum) :
  num_le c (Finite 0) = true -> num_lt (Finite (s - 1)) c = true -> s <= 0.
Proof. intros H Hs. num_cases. Qed.

Lemma num_within_positive (s : Z) (c : JsNum) :
  num_le (Finite 1) c = true ->
  s <= 1 \/ num_lt (Finite (s - 1)) c = true ->
  num_le (Finite s) c = true.
Proof. intros H [Hs | Hs]; num_cases. Qed.

Section SizeBound.
Variable V : Type.
Implicit Types (h : Cache V) (key : Js.JsValue).

Lemma all_truthy_prune now h :
  Map_wf (cacheRef h) -> all_truthy (cacheRef h) ->
  all_truthy (cacheRef (pruneExpiredEntries now h)).
Proof.
  intros Hwf Ht. rewrite cacheRef_prune by exact Hwf.
  now apply all_truthy_filter.
Qed.

Lemma all_selectable_prune now h :
  Map_wf (cacheRef h) -> all_selectable (cacheRef h) ->
  all_selectable (cacheRef (pruneExpiredEntries now h)).
Proof.
  intros Hwf Ht. rewrite cacheRef_prune by exact Hwf.
  now apply all_selectable_filter.
Qed.

Lemma set_all_truthy time now key v h :
  Map_wf (cacheRef h) -> all_truthy (cacheRef h) ->
  truthy (getCacheKey key) = true ->
  all_truthy (cacheRef (set time now key v h)).
Proof.
  intros Hwf Ht Hk. rewrite cacheRef_set.
  apply all_truthy_set; [exact Hk|].
  apply evict_all_truthy. now apply all_truthy_prune.
Qed.

Lemma set_all_selectable time now key v h :
  Map_wf (cacheRef h) -> all_selectable (cacheRef h) ->
  num_lt (ttlMs h) Infinity = true ->
  all_selectable (cacheRef (set time now key v h)).
Proof.
  intros Hwf Ht Hk. rewrite cacheRef_set.
  apply all_selectable_set.
  - unfold selectable. cbn [expiresAt]. now apply stamp_below_infinity.
  - apply evict_all_selectable. now apply all_selectable_prune.
Qed.

(** With truthy keys and entries below [Infinity], an eviction that is
    not under capacity removes one entry of a non-empty map. *)
Lemma evict_full_truthy h :
  Map_wf (cacheRef h) -> all_truthy (cacheRef h) ->
  all_selectable (cacheRef h) ->
  num_lt (Finite (Map_size (cacheRef h))) (capacity h) = false ->
  cacheRef h <> [] ->
  S (List.length (cacheRef (evictEntryIfOverCapacity h))) =
  List.length (cacheRef h).
Proof.
  intros Hwf Ht Hs Hcap Hne.
  assert (Hex : Exists (fun p => selectable (snd p) = true) (cacheRef h)).
  { destruct (cacheRef h) as [|p m]; [contradiction|].
    inversion Hs; subst. now left. }
  destruct (evict_full V h Hcap Hex)
    as (l1 & k & e & l2 & (Hm & _) & _ & Hev).
  assert (Hin : In (k, e) (cacheRef h)).
  { rewrite Hm. apply in_or_app. right. now left. }
  assert (Hk : truthy k = true).
  { unfold all_truthy in Ht. rewrite Forall_forall in Ht.
    exact (Ht (k, e) Hin). }
  rewrite Hev, Hk. simpl.
  apply length_Map_delete with (e := e); [exact Hwf|].
  now apply In_Map_get.
Qed.

Lemma within_capacity_mono h h' :
  capacity h' = capacity h ->
  Map_size (cacheRef h') <= Map_size (cacheRef h) ->
  within_capacity h -> within_capacity h'.
Proof.
  unfold within_capacity. intros Hc Hle [H | H]; [left; lia|].
  right. rewrite Hc.
  apply num_lt_mono_left with (a := Map_size (cacheRef h) - 1); [lia|exact H].
Qed.

Lemma bounded_useCache config : bounded (useCache V config).
Proof.
  repeat split; try constructor. unfold Map_size. simpl. lia.
Qed.

Lemma bounded_prune now h : bounded h -> bounded (pruneExpiredEntries now h).
Proof.
  intros (Hwf & Ht & Hs & Hsz). repeat split.
  - now apply prune_wf.
  - now apply all_truthy_prune.
  - now apply all_selectable_prune.
  - apply within_capacity_mono with (h := h); [reflexivity| |exact Hsz].
    pose proof (prune_length V now h Hwf). unfold Map_size. lia.
Qed.

Lemma set_within_capacity time now key v h :
  bounded h -> within_capacity (set time now key v h).
Proof.
  intro Hb. apply (bounded_prune time) in Hb.
  destruct Hb as (Hwf & Ht & Hs & Hsz).
  destruct (set_config V time now key v h) as [_ Hc].
  assert (Hcp : capacity (pruneExpiredEntries time h) = capacity h)
    by reflexivity.
  pose proof (cacheRef_set V time now key v h) as Hset.
  remember (pruneExpiredEntries time h) as hp eqn:Ehp.
  remember (set time now key v h) as hs eqn:Ehs.
  assert (Hlen : (List.length (cacheRef hs)
                  <= S (List.length (cacheRef (evictEntryIfOverCapacity hp))))%nat).
  { rewrite Hset, length_Map_set.
    destruct (Map_get (getCacheKey key)
                (cacheRef (evictEntryIfOverCapacity hp))); lia. }
  unfold within_capacity. rewrite Hc, <- Hcp.
  destruct (num_lt (Finite (Map_size (cacheRef hp))) (capacity hp)) eqn:Hlt.
  - right. rewrite (evict_below V hp Hlt) in Hlen.
    apply num_lt_mono_left with (a := Map_size (cacheRef hp)); [|exact Hlt].
    unfold Map_size. lia.
  - destruct (cacheRef hp) as [|p m] eqn:Hm.
    + left. rewrite (evict_empty V hp Hm), Hm in Hlen.
      unfold Map_size. cbn [List.length] in Hlen. lia.
    + assert (Hne : cacheRef hp <> []) by (rewrite Hm; discriminate).
      rewrite <- Hm in *.
      pose proof (evict_full_truthy hp Hwf Ht Hs Hlt Hne) as Hev.
      destruct Hsz as [Hsz | Hsz].
      * left. unfold Map_size in *. lia.
      * right.
        apply num_lt_mono_left with (a := Map_size (cacheRef hp) - 1);
          [|exact Hsz].
        unfold Map_size. lia.
Qed.

Lemma bounded_step h (o : Op V) :
  num_lt (ttlMs h) Infinity = true ->
  op_key_ok o -> bounded h -> bounded (step h o).
Proof.
  intros Httl Hok Hb.
  destruct o as [now key | time now key v |].
  - destruct Hb as (Hwf & Ht & Hs & Hsz).
    simpl. destruct (get_cases V now key h) as [-> | ->]; [now repeat split|].
    repeat split; simpl.
    + now apply Map_wf_delete.
    + now apply all_truthy_filter.
    + now apply all_selectable_filter.
    + apply within_capacity_mono with (h := h); [reflexivity| |exact Hsz].
      pose proof (length_Map_delete_le (CacheEntry V) (getCacheKey key)
                    (cacheRef h)).
      simpl. unfold Map_size. lia.
  - simpl in Hok. apply nonempty_string_key_truthy in Hok.
    change (step h (OpSet time now key v)) with (set time now key v h).
    pose proof (set_within_capacity time now key v h Hb) as Hw.
    destruct Hb as (Hwf & Ht & Hs & Hsz).
    repeat split.
    + now apply set_wf.
    + now apply set_all_truthy.
    + now apply set_all_selectable.
    + exact Hw.
  - repeat split; try constructor. unfold Map_size. simpl. lia.
Qed.

Lemma bounded_run (ops : list (Op V)) h :
  num_lt (ttlMs h) Infinity = true ->
  Forall (@op_key_ok V) ops -> bounded h -> bounded (run ops h).
Proof.
  revert h. induction ops as [|o ops IH]; intros h Httl Hok Hb; simpl;
    [exact Hb|].
  inversion Hok as [|? ? Ho Hops]; subst.
  apply IH; [|exact Hops|now apply bounded_step].
  destruct (step_config V h o) as [-> _]. exact Httl.
Qed.
End SizeBound.

(** ** Capacity *)

Section Capacity.
Variable V : Type.
Implicit Types (h : Cache V) (key : Js.JsValue).

Lemma Forall_firstn (A : Type) (P : A -> Prop) (n : nat) (l : list A) :
  Forall P l -> Forall P (firstn n l).
Proof.
  intro H. revert n. induction H as [|x l Hx Hl IH]; intros [|n]; simpl;
    constructor; auto.
Qed.

(** On keys whose canonical form is a non-empty string, with a [ttlMs]
    below [Infinity], the map never holds more entries than a capacity of
    at least one. *)
Lemma size_at_most_capacity config (ops : list (Op V)) :
  num_le (Finite 1) (capacity (useCache V config)) = true ->
  num_lt (ttlMs (useCache V config)) Infinity = true ->
  Forall (@op_key_ok V) ops ->
  num_le (Finite (Map_size (cacheRef (run ops (useCache V config)))))
         (capacity (useCache V config)) = true.
Proof.
  intros Hcap Httl Hok.
  destruct (bounded_run V ops _ Httl Hok (bounded_useCache V config))
    as (_ & _ & _ & Hsz).
  destruct (run_config V ops (useCache V config)) as [_ Hc].
  unfold within_capacity in Hsz. rewrite Hc in Hsz.
  now apply num_within_positive.
Qed.

Lemma bounded_nonpositive h :
  num_le (capacity h) (Finite 0) = true -> bounded h ->
  Map_size (cacheRef h) <= 1.
Proof.
  intros Hcap (_ & _ & _ & [Hsz | Hsz]); [exact Hsz|].
  pose proof (num_nonpositive_within _ _ Hcap Hsz). lia.
Qed.

(** With a capacity that is not positive the eviction step leaves
    nothing in a map of at most one truthy key. *)
Lemma evict_degenerate h :
  num_le (capacity h) (Finite 0) = true -> bounded h ->
  cacheRef (evictEntryIfOverCapacity h) = [].
Proof.
  intros Hcap Hb. pose proof (bounded_nonpositive h Hcap Hb) as Hsz.
  destruct Hb as (Hwf & Ht & Hs & _).
  destruct (cacheRef h) as [|p m] eqn:Hm.
  - rewrite (evict_empty V h Hm). exact Hm.
  - assert (Hne : cacheRef h <> []) by (rewrite Hm; discriminate).
    rewrite <- Hm in *.
    assert (Hfull : num_lt (Finite (Map_size (cacheRef h))) (capacity h)
                    = false).
    { apply num_nonpositive_full; [exact Hcap|]. unfold Map_size. lia. }
    pose proof (evict_full_truthy V h Hwf Ht Hs Hfull Hne) as Hlen.
    unfold Map_size in Hsz.
    destruct (cacheRef (evictEntryIfOverCapacity h)); [reflexivity|].
    simpl in Hlen. lia.
Qed.

Lemma set_degenerate time now key v h :
  num_le (capacity h) (Finite 0) = true -> bounded h ->
  cacheRef (set time now key v h) =
  [(getCacheKey key,
    {| value := v; expiresAt := num_add (Finite now) (ttlMs h) |})].
Proof.
  intros Hcap Hb. rewrite cacheRef_set.
  rewrite (evict_degenerate (pruneExpiredEntries time h)).
  - reflexivity.
  - exact Hcap.
  - now apply bounded_prune.
Qed.

(** C10, as the code has it: a cache built with [capacity <= 0] and a
    [ttlMs] below [Infinity], used through any sequence of [get], [set]
    and [clear] calls on keys whose canonical form is a non-empty string,
    holds at most one entry after every call; and at every [set] of the
    sequence the size check of the eviction step finds the map not under
    capacity, the step leaves the map empty before the one insertion, and
    the [set] leaves exactly the entry it writes. *)
Theorem C10_nonpositive_capacity_keeps_one config (ops : list (Op V)) (n : nat) :
  num_le (capacity (useCache V config)) (Finite 0) = true ->
  num_lt (ttlMs (useCache V config)) Infinity = true ->
  Forall (@op_key_ok V) ops ->
  Map_size (cacheRef (run (firstn n ops) (useCache V config))) <= 1
  /\ forall time now key v,
       nth_error ops n = Some (OpSet time now key v) ->
       num_lt (Finite (Map_size
                         (cacheRef (pruneExpiredEntries time
                                      (run (firstn n ops) (useCache V config))))))
              (capacity (useCache V config)) = false
       /\ cacheRef (evictEntryIfOverCapacity
                      (pruneExpiredEntries time
                         (run (firstn n ops) (useCache V config)))) = []
       /\ cacheRef (run (firstn (S n) ops) (useCache V config)) =
          [(getCacheKey key,
            {| value := v;
               expiresAt := num_add (Finite now)
                                    (ttlMs (useCache V config)) |})].
Proof.
  intros Hcap Httl Hok.
  pose proof (bounded_run V (firstn n ops) _ Httl
                (Forall_firstn _ _ n ops Hok)
                (bounded_useCache V config)) as Hb.
  destruct (run_config V (firstn n ops) (useCache V config)) as [Ht Hc].
  remember (run (firstn n ops) (useCache V config)) as h eqn:Eh.
  assert (Hcap' : num_le (capacity h) (Finite 0) = true) by now rewrite Hc.
  split; [now apply bounded_nonpositive|].
  intros time now key v Hnth. split; [|split].
  - apply num_nonpositive_full; [exact Hcap|]. unfold Map_size. lia.
  - apply evict_degenerate; [exact Hcap' | now apply bounded_prune].
  - assert (Hsplit : firstn (S n) ops = firstn n ops ++ [OpSet time now key v]).
    { clear - Hnth. revert ops Hnth.
      induction n as [|n IH]; intros [|o ops] Hnth; simpl in *;
        try discriminate.
      - now injection Hnth as ->.
      - f_equal. now apply IH. }
    rewrite Hsplit, run_app, <- Eh.
    change (run [OpSet time now key v] h) with (set time now key v h).
    rewrite set_degenerate by assumption. now rewrite Ht.
Qed.

End Capacity.

(** ** Growth behind a key whose canonical form is [undefined] *)

Section Growth.
Variable V : Type.
Variable v : V.

Lemma Map_set_absent k (e : CacheEntry V) (m : JsMap (CacheEntry V)) :
  Map_get k m = None -> Map_set k e m = m ++ [(k, e)].
Proof.
  induction m as [|[k' e'] m IH]; simpl; [reflexivity|].
  key_cases k k'; [discriminate|].
  intro H. now rewrite IH.
Qed.






End Growth.

(** ** A [ttlMs] that is not positive *)

Section ExpiredOnArrival.
Variable V : Type.
Implicit Types (h : Cache V).



End ExpiredOnArrival.


(** C10, counterexample: a cache built with [capacity = 0] and
    [ttlMs = Infinity].  Every [expiresAt] is [Infinity], which is never
    below the [Infinity] the scan starts from, so nothing is ever
    evicted: [set("a")] then [set("b")] leaves two entries. *)
Lemma C10_counterexample :
  let h := useCache Z (config_forever 0) in
  let ops := [OpSet 0 0 key_a 1; OpSet 1 1 key_b 2] in
  num_le (capacity h) (Finite 0) = true
  /\ Forall (@op_key_ok Z) ops
  /\ Map_size (cacheRef (run ops h)) = 2
  /\ ~ holds_at_most_one h.
Proof.
  intros h ops.
  assert (Hok : Forall (@op_key_ok Z) ops).
  { repeat (constructor; [do 2 eexists; reflexivity|]). constructor. }
  split; [reflexivity|]. split; [exact Hok|]. split; [reflexivity|].
  intro Hone. specialize (Hone ops 2%nat Hok).
  vm_compute in Hone. now apply Hone.
Qed.

(** C1, the run on which the bound fails: capacity 1, [set(undefined, 1)]
    at time 0 and [set("a", 2)] at time 1.  The canonical key of
    [undefined] is [undefined], the scan selects it, the test
    [if (soonestKey)] is false, nothing is evicted and the map ends with
    two entries. *)
Theorem C1_capacity_exceeded :
  let h := run [OpSet 0 0 Js.JUndefined 1; OpSet 1 1 key_a 2]
               (useCache Z (config_of 1000 1)) in
  capacity h = Finite 1
  /\ getCacheKey Js.JUndefined = None
  /\ fst (scan_soonest (cacheRef (set 0 0 Js.JUndefined 1
                                    (useCache Z (config_of 1000 1))))) = Some None
  /\ Map_size (cacheRef h) = 2
  /\ num_lt (capacity h) (Finite (Map_size (cacheRef h))) = true.
Proof. vm_compute. repeat split. Qed.

(** ** The steps of [set] *)

Section SetSteps.
Variable V : Type.
Implicit Types (h : Cache V) (key : Js.JsValue).

Lemma Map_delete_middle (l1 l2 : JsMap (CacheEntry V)) k e :
  Map_wf (l1 ++ (k, e) :: l2) ->
  Map_delete k (l1 ++ (k, e) :: l2) = l1 ++ l2.
Proof.
  unfold Map_wf. rewrite map_app. simpl. intro Hnd.
  apply NoDup_remove_2 in Hnd.
  assert (H1 : ~ In k (map fst l1)).
  { intro Hin. apply Hnd. apply in_or_app. now left. }
  assert (H2 : ~ In k (map fst l2)).
  { intro Hin. apply Hnd. apply in_or_app. now right. }
  apply Map_get_None in H1. apply Map_get_None in H2.
  unfold Map_delete. rewrite filter_app. simpl. rewrite key_eqb_refl. simpl.
  fold (Map_delete k l1). fold (Map_delete k l2).
  now rewrite !Map_delete_absent.
Qed.


(** C7, as the code has it: after [set(k, v1)] and then [set(k, v2)]
    with nothing expiring in between, [get(k)] before expiry returns
    [v2].  The second call leaves the entry count of the first call
    unchanged when that count is below capacity; at capacity its
    eviction step runs before the overwrite, and the count is then the
    same or one less. *)
Theorem C7_overwrite h key v1 v2 (time1 t1 time2 t2 t3 : Z) :
  Map_wf (cacheRef h) ->
  nothing_expired time2 (set time1 t1 key v1 h) ->
  let h1 := set time1 t1 key v1 h in
  let h2 := set time2 t2 key v2 h1 in
  (t2 <= t3 /\ num_lt (Finite t3) (num_add (Finite t2) (ttlMs h)) = true ->
     fst (get t3 key h2) = Some v2)
  /\ Map_size (cacheRef h2) <= Map_size (cacheRef h1)
  /\ Map_size (cacheRef h1) - 1 <= Map_size (cacheRef h2)
  /\ (num_lt (Finite (Map_size (cacheRef h1))) (capacity h) = true ->
        Map_size (cacheRef h2) = Map_size (cacheRef h1)).
Proof.
  intros Hwf Hlive. cbv zeta.
  assert (Hwf1 : Map_wf (cacheRef (set time1 t1 key v1 h)))
    by now apply set_wf.
  destruct (set_config V time1 t1 key v1 h) as [Httl Hcap].
  pose proof (lookup_after_set V time1 t1 key v1 h) as Hstored.
  remember (set time1 t1 key v1 h) as h1 eqn:Eh1.
  remember (set time2 t2 key v2 h1) as h2 eqn:Eh2.
  assert (Hc2 : cacheRef h2 =
                Map_set (getCacheKey key)
                  {| value := v2;
                     expiresAt := num_add (Finite t2) (ttlMs h1) |}
                  (cacheRef (evictEntryIfOverCapacity h1))).
  { rewrite Eh2, cacheRef_set. now rewrite prune_nothing. }
  assert (Hkeep : evictEntryIfOverCapacity h1 = h1 ->
                  Map_size (cacheRef h2) = Map_size (cacheRef h1)).
  { intro Hev. rewrite Hc2, Hev. unfold Map_size.
    rewrite length_Map_set, Hstored. reflexivity. }
  assert (Hdrop : forall k e,
             In (k, e) (cacheRef h1) ->
             evictEntryIfOverCapacity h1 =
               with_cacheRef h1 (Map_delete k (cacheRef h1)) ->
             Map_size (cacheRef h1) - 1 <= Map_size (cacheRef h2)
               <= Map_size (cacheRef h1)).
  { intros k e Hin Hev. rewrite Hc2, Hev.
    unfold with_cacheRef. cbn [cacheRef]. unfold Map_size.
    rewrite length_Map_set.
    pose proof (length_Map_delete (CacheEntry V) k e (cacheRef h1) Hwf1
                  (In_Map_get _ k e _ Hwf1 Hin)) as Hlen.
    destruct (Map_get (getCacheKey key) (Map_delete k (cacheRef h1))); lia. }
  split; [|split; [|split]].
  - intros [_ Hlt]. rewrite Eh2. apply set_then_get. now rewrite Httl.
  - destruct (evict_cases V h1) as [Hev | (k & e & Hin & Hev)].
    + rewrite (Hkeep Hev). lia.
    + apply (Hdrop k e Hin Hev).
  - destruct (evict_cases V h1) as [Hev | (k & e & Hin & Hev)].
    + rewrite (Hkeep Hev). lia.
    + apply (Hdrop k e Hin Hev).
  - intro Hlt. apply Hkeep. apply evict_below. now rewrite Hcap.
Qed.
End SetSteps.


(** C7, counterexample: capacity 2, TTL 100, ["k"] set at 0 and ["a"] at
    10.  Then [set("k", 3)] and [set("k", 4)] at time 20, when nothing has
    expired: the cache held 2 entries before the first call, holds 2 after
    it and 1 after the second, which evicts ["a"] before overwriting. *)
Lemma C7_counterexample :
  let h := run [OpSet 0 0 key_k 1; OpSet 10 10 key_a 2]
               (useCache Z (config_of 100 2)) in
  nothing_expired 20 h
  /\ nothing_expired 20 (set 20 20 key_k 3 h)
  /\ Map_size (cacheRef h) = 2
  /\ Map_size (cacheRef (set 20 20 key_k 3 h)) = 2
  /\ Map_size (cacheRef (set 20 20 key_k 4 (set 20 20 key_k 3 h))) = 1
  /\ ~ overwrite_keeps_count h key_k 3 4 20 20.
Proof.
  vm_compute. repeat split; try (repeat constructor).
  intros [H _]. discriminate H.
Qed.

(** C8, the keys on which canonicalization fails: [{a: 1, b: 2}] and
    [{b: 2, a: 1}] have the same fields and values, [JSON.stringify]
    gives them different strings, and a value stored under one is not
    found under the other. *)
Theorem C8_property_order_changes_key :
  Js.same_key key_ab key_ba
  /\ getCacheKey key_ab <> getCacheKey key_ba
  /\ fst (get 0 key_ba (set 0 0 key_ab 7 (useCache Z default_config))) = None
  /\ fst (get 0 key_ab (set 0 0 key_ab 7 (useCache Z default_config))) = Some 7.
Proof.
  split; [|split; [|split]].
  - apply Js.same_obj_perm. apply perm_swap.
  - vm_compute. intro H. discriminate H.
  - vm_compute. reflexivity.
  - vm_compute. reflexivity.
Qed.

(** ** Scenarios *)

Ltac solve_wf :=
  unfold Map_wf; vm_compute;
  repeat (constructor;
          [ let H := fresh "H" in
            intro H; simpl in H;
            repeat (destruct H as [H|H]; [discriminate H|]); exact H
          | ]);
  constructor.

Ltac solve_keys :=
  repeat (constructor; [first [exact I | do 2 eexists; reflexivity
                              | eexists; reflexivity] | ]);
  constructor.

Ltac solve_live := vm_compute; repeat constructor.

(** C2 on the scenario [ttlMs = 50]: ["x"] set at 0 and read at 10. *)
Lemma C2_witness :
  num_lt (Finite 0) (ttlMs (useCache Z (config_of 50 100))) = true
  /\ fst (get 10 key_x (set 0 0 key_x 7 (useCache Z (config_of 50 100))))
     = Some 7.
Proof.
  split; [reflexivity|].
  apply C2_set_then_get; [reflexivity|]. split; [lia | reflexivity].
Defined.

(** C3 on the same scenario: read at 60 (absent, entry deleted) and at 10. *)
Lemma C3_witness :
  let h := useCache Z (config_of 50 100) in
  let h' := set 0 0 key_x 7 h in
  (fst (get 60 key_x h') = None
   /\ cacheRef (snd (get 60 key_x h')) = Map_delete (getCacheKey key_x) (cacheRef h')
   /\ Map_get (getCacheKey key_x) (cacheRef (snd (get 60 key_x h'))) = None)
  /\ get 10 key_x h' = (Some 7, h').
Proof.
  intros h h'. split.
  - apply (proj1 (C3_expiry Z h h' key_x 7 0 0 60 eq_refl)). reflexivity.
  - apply (proj2 (C3_expiry Z h h' key_x 7 0 0 10 eq_refl)).
    split; [lia | reflexivity].
Defined.

(** C5 on a cache that holds ["x"]. *)
Lemma C5_witness :
  let h := set 0 0 key_x 7 (useCache Z default_config) in
  cacheRef (clear h) = []
  /\ fst (get 5 key_x (clear h)) = None
  /\ fst (get 10 key_a (set 0 0 key_a 1 (clear h))) = Some 1.
Proof.
  intro h. destruct (C5_clear Z h) as (Hempty & _ & _ & Hget & Hround).
  split; [exact Hempty|]. split.
  - now rewrite Hget.
  - apply Hround. split; [lia | reflexivity].
Defined.


(** C10 on a cache with capacity 0 and a TTL of 1000: the size after the
    first call, and the second call, a [set] on ["b"] that evicts ["a"]
    and leaves ["b"] alone in the map. *)
Lemma C10_witness :
  let ops := [OpSet 0 0 key_a 1; OpSet 1 1 key_b 2; OpGet 2 key_a; OpClear;
              OpSet 3 3 key_c 3] in
  let h0 := useCache Z (config_of 1000 0) in
  num_le (capacity h0) (Finite 0) = true
  /\ num_lt (ttlMs h0) Infinity = true
  /\ Map_size (cacheRef (run (firstn 1 ops) h0)) <= 1
  /\ num_lt (Finite (Map_size (cacheRef (pruneExpiredEntries 1
                                           (run (firstn 1 ops) h0)))))
            (capacity h0) = false
  /\ cacheRef (evictEntryIfOverCapacity
                 (pruneExpiredEntries 1 (run (firstn 1 ops) h0))) = []
  /\ cacheRef (run (firstn 2 ops) h0) =
     [(getCacheKey key_b, {| value := 2; expiresAt := Finite 1001 |})].
Proof.
  intros ops h0.
  assert (Hcap : num_le (capacity h0) (Finite 0) = true) by reflexivity.
  assert (Httl : num_lt (ttlMs h0) Infinity = true) by reflexivity.
  assert (Hok : Forall (@op_key_ok Z) ops) by solve_keys.
  split; [exact Hcap|]. split; [exact Httl|].
  destruct (C10_nonpositive_capacity_keeps_one Z (config_of 1000 0) ops 1
              Hcap Httl Hok) as [Hsize Hset].
  split; [exact Hsize|].
  exact (Hset 1 1 key_b 2 eq_refl).
Defined.



(** C7 below capacity: ["k"] written twice in a cache of capacity 3. *)
Lemma C7_witness :
  let h := run [OpSet 0 0 key_a 1] (useCache Z (config_of 1000 3)) in
  let h1 := set 10 10 key_k 2 h in
  let h2 := set 20 20 key_k 3 h1 in
  Map_wf (cacheRef h)
  /\ nothing_expired 20 h1
  /\ fst (get 30 key_k h2) = Some 3
  /\ Map_size (cacheRef h2) = Map_size (cacheRef h1).
Proof.
  intros h h1 h2.
  assert (Hwf : Map_wf (cacheRef h)) by solve_wf.
  assert (Hlive : nothing_expired 20 h1) by solve_live.
  split; [exact Hwf|]. split; [exact Hlive|].
  destruct (C7_overwrite Z h key_k 2 3 10 10 20 20 30 Hwf Hlive)
    as (Hget & _ & _ & Hsame).
  split.
  - apply Hget. split; [lia | reflexivity].
  - apply Hsame. reflexivity.
Defined.

(** ** What the cache holds, in terms of the calls made *)

Section HistoryFacts.
Variable V : Type.
Implicit Types (h : Cache V) (key : Js.JsValue) (k : CacheKey).

Lemma Map_get_filter (f : CacheKey * CacheEntry V -> bool)
    (m : JsMap (CacheEntry V)) k :
  Map_wf m ->
  Map_get k (filter f m) =
  match Map_get k m with
  | Some e => if f (k, e) then Some e else None
  | None => None
  end.
Proof.
  unfold Map_wf. induction m as [|[k' e'] m IH]; simpl; intro Hnd;
    [reflexivity|].
  inversion Hnd as [|? ? Hnot Hnd']; subst.
  destruct (f (k', e')) eqn:Hf; simpl; key_cases k k'.
  - subst. now rewrite Hf.
  - now apply IH.
  - subst. rewrite Hf. apply Map_get_None.
    intro Hin. apply Hnot. eapply keys_filter_incl. exact Hin.
  - now apply IH.
Qed.

Lemma lookup_after_prune now h k :
  Map_wf (cacheRef h) ->
  Map_get k (cacheRef (pruneExpiredEntries now h)) =
  match Map_get k (cacheRef h) with
  | Some e => if isExpired now e then None else Some e
  | None => None
  end.
Proof.
  intro Hwf. rewrite cacheRef_prune by exact Hwf.
  rewrite Map_get_filter by exact Hwf.
  destruct (Map_get k (cacheRef h)) as [e|]; [|reflexivity].
  simpl. now destruct (isExpired now e).
Qed.

Lemma lookup_after_evict h k :
  Map_get k (cacheRef (evictEntryIfOverCapacity h)) = Map_get k (cacheRef h)
  \/ Map_get k (cacheRef (evictEntryIfOverCapacity h)) = None.
Proof.
  destruct (evict_cases V h) as [-> | (k0 & e & _ & ->)]; [now left|].
  simpl. key_cases k k0.
  - subst. right. apply Map_get_delete_same.
  - left. now apply Map_get_delete_other.
Qed.

Lemma lookup_other_after_set time now key v h k :
  k <> getCacheKey key ->
  Map_get k (cacheRef (set time now key v h)) =
  Map_get k (cacheRef (evictEntryIfOverCapacity (pruneExpiredEntries time h))).
Proof. intro Hne. rewrite cacheRef_set. now apply Map_get_set_other. Qed.

(** A [set] on another key keeps the entry of [k] as it is or removes it. *)
Lemma set_keeps_or_drops time now key v h k :
  Map_wf (cacheRef h) -> k <> getCacheKey key ->
  Map_get k (cacheRef (set time now key v h)) = Map_get k (cacheRef h)
  \/ Map_get k (cacheRef (set time now key v h)) = None.
Proof.
  intros Hwf Hne. rewrite lookup_other_after_set by exact Hne.
  destruct (lookup_after_evict (pruneExpiredEntries time h) k) as [-> | ->];
    [|now right].
  rewrite lookup_after_prune by exact Hwf.
  destruct (Map_get k (cacheRef h)) as [e|]; [|now left].
  destruct (isExpired time e); [now right | now left].
Qed.

Lemma get_keeps_or_drops now key h k :
  Map_get k (cacheRef (snd (get now key h))) = Map_get k (cacheRef h)
  \/ Map_get k (cacheRef (snd (get now key h))) = None.
Proof.
  destruct (get_cases V now key h) as [-> | ->]; [now left|].
  simpl. key_cases k (getCacheKey key).
  - subst. right. apply Map_get_delete_same.
  - left. now apply Map_get_delete_other.
Qed.

Lemma run_snoc (ops : list (Op V)) (o : Op V) h :
  run (ops ++ [o]) h = step (run ops h) o.
Proof. now rewrite run_app. Qed.

Lemma last_write_snoc ttl k (ops : list (Op V)) (o : Op V) :
  last_write ttl k (ops ++ [o]) = write_step ttl k (last_write ttl k ops) o.
Proof. unfold last_write. now rewrite fold_left_app. Qed.

(** Whatever calls were made on a cache since it was created, the entry
    stored under a canonical key is either absent or exactly the entry
    written by the latest [set] on that canonical key. *)
Lemma lookup_after_run config (ops : list (Op V)) k :
  Map_get k (cacheRef (run ops (useCache V config))) = None
  \/ Map_get k (cacheRef (run ops (useCache V config))) =
     last_write (ttlMs (useCache V config)) k ops.
Proof.
  induction ops as [|o ops IH] using rev_ind; [now left|].
  rewrite run_snoc, last_write_snoc.
  set (h := run ops (useCache V config)) in *.
  assert (Hwf : Map_wf (cacheRef h)) by apply run_wf, useCache_wf.
  destruct (run_config V ops (useCache V config)) as [Httl _]. fold h in Httl.
  destruct o as [now key | time now key v |].
  - simpl. destruct (get_keeps_or_drops now key h k) as [-> | ->];
      [exact IH | now left].
  - change (step h (OpSet time now key v)) with (set time now key v h).
    unfold write_step. key_cases (getCacheKey key) k.
    + right. subst k. rewrite lookup_after_set. now rewrite Httl.
    + destruct (set_keeps_or_drops time now key v h k Hwf) as [-> | ->];
        [congruence | exact IH | now left].
  - now left.
Qed.

(** X1: whatever calls were made on a cache since it was created, a
    value that [get] returns is the value passed to the latest [set] on
    that canonical key, and the entry of that call, which expires at its
    stamping clock reading plus [ttlMs], has not expired. *)
Theorem X1_get_returns_last_write config (ops : list (Op V)) now key v :
  fst (get now key (run ops (useCache V config))) = Some v ->
  exists e,
    last_write (ttlMs (useCache V config)) (getCacheKey key) ops = Some e
    /\ value e = v /\ isExpired now e = false.
Proof.
  intro Hget. unfold get in Hget.
  destruct (Map_get (getCacheKey key)
              (cacheRef (run ops (useCache V config)))) as [e|] eqn:Hm;
    [|discriminate].
  destruct (isExpired now e) eqn:Hexp; [discriminate|].
  simpl in Hget. injection Hget as Hv.
  exists e. split; [|split; [exact Hv | first [reflexivity | exact Hexp]]].
  destruct (lookup_after_run config ops (getCacheKey key))
    as [Hnone | Hlast]; congruence.
Qed.

Lemma last_write_none ttl k (ops : list (Op V)) :
  (forall time t key v, In (OpSet time t key v) ops -> getCacheKey key <> k) ->
  last_write ttl k ops = None.
Proof.
  induction ops as [|o ops IH] using rev_ind; intro Hno; [reflexivity|].
  rewrite last_write_snoc, IH.
  - destruct o as [t key | time t key v |]; simpl; try reflexivity.
    key_cases (getCacheKey key) k; [|reflexivity].
    exfalso. apply (Hno time t key v); [|exact Heq].
    apply in_or_app. right. now left.
  - intros time t key v Hin. apply (Hno time t key v). apply in_or_app. now left.
Qed.

(** X2: a key is absent when no [set] was ever made on a key with its
    canonical form, whatever other calls were made: [get] returns
    [undefined] and leaves the cache as it is. *)
Theorem X2_never_written_key_is_absent config (ops : list (Op V)) now key :
  (forall time t key' v, In (OpSet time t key' v) ops ->
                         getCacheKey key' <> getCacheKey key) ->
  get now key (run ops (useCache V config)) =
  (None, run ops (useCache V config)).
Proof.
  intro Hno. apply get_absent.
  destruct (lookup_after_run config ops (getCacheKey key)) as [H | H];
    [exact H|].
  rewrite H. now apply last_write_none.
Qed.
End HistoryFacts.

(** ** One call at a time *)

Section CallFacts.
Variable V : Type.
Implicit Types (h : Cache V) (key : Js.JsValue) (k : CacheKey).

Lemma In_Map_set k (e : CacheEntry V) (m : JsMap (CacheEntry V)) p :
  In p (Map_set k e m) -> p = (k, e) \/ In p m.
Proof.
  induction m as [|[k' e'] m IH]; simpl.
  - intros [<- | []]. now left.
  - key_cases k k'; simpl.
    + intros [<- | Hin]; [now left | right; now right].
    + intros [<- | Hin]; [right; now left|].
      destruct (IH Hin) as [-> | Hin']; [now left | right; now right].
Qed.

Lemma In_after_evict h p :
  In p (cacheRef (evictEntryIfOverCapacity h)) -> In p (cacheRef h).
Proof.
  destruct (evict_cases V h) as [-> | (k0 & e & _ & ->)]; [auto|].
  simpl. intro Hin. now apply In_Map_delete in Hin.
Qed.


(** X4: while the first entry of the map is stored under a falsy key
    (the canonical form [undefined]) and has the least [expiresAt], a
    [set] evicts nothing whatever the capacity: with nothing expired the
    map after the call is the map before it with the new entry written,
    one entry longer when the key is new. *)
Theorem X4_falsy_head_blocks_eviction h time now key v k e rest :
  Map_wf (cacheRef h) ->
  cacheRef h = (k, e) :: rest ->
  truthy k = false ->
  Forall (fun p => num_le (expiresAt e) (expiresAt (snd p)) = true) rest ->
  nothing_expired time h ->
  cacheRef (set time now key v h) =
    Map_set (getCacheKey key)
            {| value := v; expiresAt := num_add (Finite now) (ttlMs h) |}
            (cacheRef h)
  /\ (Map_get (getCacheKey key) (cacheRef h) = None ->
        Map_size (cacheRef (set time now key v h)) =
        Map_size (cacheRef h) + 1).
Proof.
  intros Hwf Hm Hk Hle Hlive.
  assert (Hset : cacheRef (set time now key v h) =
                 Map_set (getCacheKey key)
                   {| value := v;
                      expiresAt := num_add (Finite now) (ttlMs h) |}
                   (cacheRef h)).
  { rewrite cacheRef_set, (prune_nothing V time h Hwf Hlive).
    now rewrite (evict_skips_falsy_key V h k e rest Hm Hk Hle). }
  split; [exact Hset|].
  intro Hnew. rewrite Hset. unfold Map_size.
  rewrite length_Map_set, Hnew. lia.
Qed.

(** X5: with a positive TTL and a clock that has not run backwards
    between the two readings of a [set], no entry the [set] leaves in the
    map had expired at the reading it pruned with: the expired ones were
    pruned and the entry written expires later. *)
Theorem X5_set_leaves_no_expired_entry h time now key v :
  num_lt (Finite 0) (ttlMs h) = true ->
  Map_wf (cacheRef h) ->
  time <= now ->
  nothing_expired time (set time now key v h).
Proof.
  intros Hpos Hwf Hclock. unfold nothing_expired. apply Forall_forall.
  intros p Hin. rewrite cacheRef_set in Hin.
  apply In_Map_set in Hin. destruct Hin as [-> | Hin].
  - unfold isExpired. cbn [snd expiresAt]. now apply stamp_live.
  - apply In_after_evict in Hin.
    rewrite cacheRef_prune in Hin by exact Hwf.
    apply filter_In in Hin. destruct Hin as [_ Hlive].
    now apply Bool.negb_true_iff in Hlive.
Qed.

(** Not under capacity, a first entry with a truthy key and an
    [expiresAt] that is below [Infinity] and the least is the one
    evicted. *)
Lemma evict_drops_least_head h k0 e0 rest :
  Map_wf (cacheRef h) ->
  cacheRef h = (k0, e0) :: rest ->
  truthy k0 = true ->
  selectable e0 = true ->
  Forall (fun p => num_le (expiresAt e0) (expiresAt (snd p)) = true) rest ->
  num_lt (Finite (Map_size (cacheRef h))) (capacity h) = false ->
  cacheRef (evictEntryIfOverCapacity h) = rest.
Proof.
  intros Hwf Hm Hk Hsel Hle Hfull. unfold evictEntryIfOverCapacity.
  rewrite Hfull. rewrite Hm at 1. rewrite (scan_head V k0 e0 rest).
  - rewrite Hsel. simpl. rewrite Hk. simpl. rewrite Hm.
    apply (Map_delete_middle V [] rest k0 e0). simpl. now rewrite <- Hm.
  - eapply Forall_impl; [|exact Hle]. intros p Hp. now apply num_le_not_lt.
  - intro Hno. congruence.
Qed.

(** X6: first in, first out.  When the map is not under capacity, holds
    no expired entry, and its first entry has a truthy key and an
    [expiresAt] that is below [Infinity] and the least, a [set] on a key
    that is not stored removes exactly that first entry and appends the
    new one; the other entries keep their order. *)
Theorem X6_full_cache_drops_oldest h time now key v k0 e0 rest :
  Map_wf (cacheRef h) ->
  cacheRef h = (k0, e0) :: rest ->
  truthy k0 = true ->
  selectable e0 = true ->
  Forall (fun p => num_le (expiresAt e0) (expiresAt (snd p)) = true) rest ->
  nothing_expired time h ->
  num_lt (Finite (Map_size (cacheRef h))) (capacity h) = false ->
  Map_get (getCacheKey key) (cacheRef h) = None ->
  cacheRef (set time now key v h) =
  rest ++ [(getCacheKey key,
            {| value := v; expiresAt := num_add (Finite now) (ttlMs h) |})].
Proof.
  intros Hwf Hm Hk Hsel Hle Hlive Hfull Hnew.
  rewrite cacheRef_set, (prune_nothing V time h Hwf Hlive).
  rewrite (evict_drops_least_head h k0 e0 rest Hwf Hm Hk Hsel Hle Hfull).
  apply Map_set_absent.
  rewrite Hm in Hnew. simpl in Hnew.
  destruct (key_eqb (getCacheKey key) k0); [discriminate | exact Hnew].
Qed.

(** X16: eviction runs before the overwrite.  When the map is not under
    capacity, holds no expired entry, and its first entry has a truthy
    key and an [expiresAt] that is below [Infinity] and the least, a
    [set] on a key that is already stored further on still removes that
    first entry: the map ends one entry shorter, although the write added
    no key. *)
Theorem X16_overwrite_at_capacity_evicts h time now key v k0 e0 rest e :
  Map_wf (cacheRef h) ->
  cacheRef h = (k0, e0) :: rest ->
  truthy k0 = true ->
  selectable e0 = true ->
  Forall (fun p => num_le (expiresAt e0) (expiresAt (snd p)) = true) rest ->
  nothing_expired time h ->
  num_lt (Finite (Map_size (cacheRef h))) (capacity h) = false ->
  getCacheKey key <> k0 ->
  Map_get (getCacheKey key) (cacheRef h) = Some e ->
  cacheRef (set time now key v h) =
    Map_set (getCacheKey key)
            {| value := v; expiresAt := num_add (Finite now) (ttlMs h) |} rest
  /\ Map_size (cacheRef (set time now key v h)) = Map_size (cacheRef h) - 1.
Proof.
  intros Hwf Hm Hk Hsel Hle Hlive Hfull Hne Hstored.
  assert (Hset : cacheRef (set time now key v h) =
                 Map_set (getCacheKey key)
                   {| value := v;
                      expiresAt := num_add (Finite now) (ttlMs h) |} rest).
  { rewrite cacheRef_set, (prune_nothing V time h Hwf Hlive).
    now rewrite (evict_drops_least_head h k0 e0 rest Hwf Hm Hk Hsel Hle Hfull). }
  split; [exact Hset|].
  rewrite Hset. unfold Map_size. rewrite length_Map_set.
  rewrite Hm in Hstored. simpl in Hstored.
  apply key_eqb_neq in Hne. rewrite Hne in Hstored.
  rewrite Hstored, Hm. cbn [List.length]. lia.
Qed.

(** X17: under the same conditions a [set] on the key of that first
    entry moves the key to the end of the iteration order: the old entry
    is evicted and the new one appended. *)
Theorem X17_overwrite_of_oldest_moves_it_last h time now key v e0 rest :
  Map_wf (cacheRef h) ->
  cacheRef h = (getCacheKey key, e0) :: rest ->
  truthy (getCacheKey key) = true ->
  selectable e0 = true ->
  Forall (fun p => num_le (expiresAt e0) (expiresAt (snd p)) = true) rest ->
  nothing_expired time h ->
  num_lt (Finite (Map_size (cacheRef h))) (capacity h) = false ->
  cacheRef (set time now key v h) =
  rest ++ [(getCacheKey key,
            {| value := v; expiresAt := num_add (Finite now) (ttlMs h) |})].
Proof.
  intros Hwf Hm Hk Hsel Hle Hlive Hfull.
  rewrite cacheRef_set, (prune_nothing V time h Hwf Hlive).
  rewrite (evict_drops_least_head h _ e0 rest Hwf Hm Hk Hsel Hle Hfull).
  apply Map_set_absent. apply Map_get_None.
  unfold Map_wf in Hwf. rewrite Hm in Hwf. simpl in Hwf.
  now inversion Hwf.
Qed.

(** X7: below capacity a [set] does not disturb the other keys: an entry
    stored under another canonical key, not expired at the reading the
    call prunes with, is still stored, with the same value and expiry,
    when fewer than [capacity] unexpired entries are held. *)
Theorem X7_set_keeps_other_live_entries h time now key v k e :
  Map_wf (cacheRef h) ->
  k <> getCacheKey key ->
  Map_get k (cacheRef h) = Some e ->
  isExpired time e = false ->
  num_lt (Finite (Map_size (cacheRef (pruneExpiredEntries time h))))
         (capacity h) = true ->
  Map_get k (cacheRef (set time now key v h)) = Some e.
Proof.
  intros Hwf Hne Hk Hlive Hroom.
  rewrite lookup_other_after_set by exact Hne.
  rewrite (evict_below V (pruneExpiredEntries time h)) by exact Hroom.
  rewrite lookup_after_prune, Hk by exact Hwf.
  now rewrite Hlive.
Qed.

(** X8: a [set] never creates or changes an entry under another key: an
    entry found under another canonical key after the call was stored
    before it with the same value and expiry, and had not expired at the
    reading the call pruned with. *)
Theorem X8_set_never_alters_other_entries h time now key v k e :
  Map_wf (cacheRef h) ->
  k <> getCacheKey key ->
  Map_get k (cacheRef (set time now key v h)) = Some e ->
  Map_get k (cacheRef h) = Some e /\ isExpired time e = false.
Proof.
  intros Hwf Hne Hafter.
  rewrite lookup_other_after_set in Hafter by exact Hne.
  destruct (lookup_after_evict V (pruneExpiredEntries time h) k) as [Heq | Heq];
    rewrite Heq in Hafter; [|discriminate].
  rewrite lookup_after_prune in Hafter by exact Hwf.
  destruct (Map_get k (cacheRef h)) as [e'|]; [|discriminate].
  destruct (isExpired time e') eqn:Hexp; [discriminate|].
  injection Hafter as ->. now split.
Qed.

(** X9: reading twice is reading once: a second [get] of the same key at
    the same time returns what the first returned and leaves the cache as
    the first left it. *)
Theorem X9_get_idempotent h now key :
  get now key (snd (get now key h)) =
  (fst (get now key h), snd (get now key h)).
Proof.
  unfold get at 2 3 4.
  destruct (Map_get (getCacheKey key) (cacheRef h)) as [e|] eqn:Hm.
  - destruct (isExpired now e) eqn:Hexp; simpl.
    + apply get_absent. simpl. apply Map_get_delete_same.
    + unfold get. now rewrite Hm, Hexp.
  - simpl. now apply get_absent.
Qed.

(** X10: pruning is invisible to reads: at any time not before the
    pruning time, [get] returns the same result on the pruned cache as on
    the cache itself. *)
Theorem X10_prune_invisible_to_reads h now now' key :
  Map_wf (cacheRef h) ->
  now <= now' ->
  fst (get now' key (pruneExpiredEntries now h)) = fst (get now' key h).
Proof.
  intros Hwf Hle. unfold get.
  rewrite lookup_after_prune by exact Hwf.
  destruct (Map_get (getCacheKey key) (cacheRef h)) as [e|]; [|reflexivity].
  destruct (isExpired now e) eqn:H1.
  - assert (H2 : isExpired now' e = true).
    { unfold isExpired in *. now apply num_le_mono with (a := now). }
    now rewrite H2.
  - now destruct (isExpired now' e).
Qed.

(** X11: a [set] adds at most one entry to the map and removes at most
    one unexpired entry, even when the map holds more than [capacity];
    a [get] adds none and removes at most one. *)
Theorem X11_size_changes_by_at_most_one h time now key v :
  Map_wf (cacheRef h) ->
  Map_size (cacheRef (set time now key v h)) <= Map_size (cacheRef h) + 1
  /\ Map_size (cacheRef (pruneExpiredEntries time h)) - 1 <=
       Map_size (cacheRef (set time now key v h))
  /\ Map_size (cacheRef h) - 1 <= Map_size (cacheRef (snd (get now key h)))
       <= Map_size (cacheRef h).
Proof.
  intro Hwf.
  assert (Hwfp : Map_wf (cacheRef (pruneExpiredEntries time h)))
    by now apply prune_wf.
  pose proof (prune_length V time h Hwf) as Hp.
  pose proof (evict_length_le V (pruneExpiredEntries time h)) as He.
  assert (Hlow : (List.length (cacheRef (pruneExpiredEntries time h))
                  <= S (List.length (cacheRef (evictEntryIfOverCapacity
                                         (pruneExpiredEntries time h)))))%nat).
  { destruct (evict_cases V (pruneExpiredEntries time h))
      as [Hev | (k0 & e0 & Hin & Hev)]; rewrite Hev; [lia|].
    unfold with_cacheRef. cbn [cacheRef].
    pose proof (length_Map_delete (CacheEntry V) k0 e0 _ Hwfp
                  (In_Map_get _ k0 e0 _ Hwfp Hin)) as Hd. lia. }
  rewrite cacheRef_set.
  remember (cacheRef (evictEntryIfOverCapacity (pruneExpiredEntries time h)))
    as m' eqn:Em'.
  pose proof (length_Map_set (CacheEntry V) (getCacheKey key)
                {| value := v;
                   expiresAt := num_add (Finite now) (ttlMs h) |} m') as Hs.
  split; [|split].
  - unfold Map_size. rewrite Hs.
    destruct (Map_get (getCacheKey key) m'); lia.
  - unfold Map_size. rewrite Hs.
    destruct (Map_get (getCacheKey key) m'); lia.
  - unfold get.
    destruct (Map_get (getCacheKey key) (cacheRef h)) as [e|] eqn:Hm;
      [|simpl; lia].
    destruct (isExpired now e); [|simpl; lia].
    simpl. unfold Map_size.
    pose proof (length_Map_delete (CacheEntry V) _ e _ Hwf Hm). lia.
Qed.

(** X12: with a TTL that is not positive an entry is expired from the
    moment it is written: a [get] at the stamping time of the [set] or
    later returns [undefined] and deletes the entry. *)
Theorem X12_nonpositive_ttl_never_readable h key v (time t t' : Z) :
  num_le (ttlMs h) (Finite 0) = true ->
  t <= t' ->
  fst (get t' key (set time t key v h)) = None
  /\ Map_get (getCacheKey key)
             (cacheRef (snd (get t' key (set time t key v h)))) = None.
Proof.
  intros Httl Hle.
  rewrite (get_expired V t' key (set time t key v h) _
             (lookup_after_set V time t key v h)).
  - simpl. split; [reflexivity | apply Map_get_delete_same].
  - unfold isExpired. cbn [expiresAt]. now apply stamp_dead.
Qed.

(** X13: pruning composes: pruning at one time and then at another is
    pruning once at the later of the two. *)
Theorem X13_prune_twice h (t1 t2 : Z) :
  Map_wf (cacheRef h) ->
  pruneExpiredEntries t2 (pruneExpiredEntries t1 h) =
  pruneExpiredEntries (Z.max t1 t2) h.
Proof.
  intro Hwf.
  assert (Hwf1 : Map_wf (cacheRef (pruneExpiredEntries t1 h)))
    by now apply prune_wf.
  unfold pruneExpiredEntries at 1 3. unfold with_cacheRef. simpl ttlMs.
  simpl capacity. f_equal.
  rewrite (prune_filter V t2 _ Hwf1), (prune_filter V (Z.max t1 t2) _ Hwf).
  rewrite cacheRef_prune by exact Hwf. rewrite filter_twice.
  apply filter_ext. intros [k e]. unfold isExpired. cbn [snd].
  rewrite num_le_max. now rewrite Bool.negb_orb.
Qed.

(** X18: a cache that never expires never evicts.  With
    [ttlMs = Infinity] and every stored [expiresAt] equal to [Infinity],
    a [set] prunes nothing and selects nothing for eviction, whatever the
    capacity: the map after the call is the map before it with the new
    entry written, again with every [expiresAt] equal to [Infinity], and
    one entry longer when the key is new. *)
Theorem X18_infinite_ttl_disables_eviction h time now key v :
  Map_wf (cacheRef h) ->
  ttlMs h = Infinity ->
  Forall (fun p => expiresAt (snd p) = Infinity) (cacheRef h) ->
  cacheRef (set time now key v h) =
    Map_set (getCacheKey key) {| value := v; expiresAt := Infinity |}
            (cacheRef h)
  /\ Forall (fun p => expiresAt (snd p) = Infinity)
            (cacheRef (set time now key v h))
  /\ (Map_get (getCacheKey key) (cacheRef h) = None ->
        Map_size (cacheRef (set time now key v h)) =
        Map_size (cacheRef h) + 1).
Proof.
  intros Hwf Httl Hinf.
  assert (Hlive : nothing_expired time h).
  { unfold nothing_expired. eapply Forall_impl; [|exact Hinf].
    intros p Hp. unfold isExpired. now rewrite Hp. }
  assert (Hnone : Forall (fun p => selectable (snd p) = false) (cacheRef h)).
  { eapply Forall_impl; [|exact Hinf].
    intros p Hp. unfold selectable. now rewrite Hp. }
  assert (Hset : cacheRef (set time now key v h) =
                 Map_set (getCacheKey key)
                   {| value := v; expiresAt := Infinity |} (cacheRef h)).
  { rewrite cacheRef_set, (prune_nothing V time h Hwf Hlive).
    rewrite (evict_none V h Hnone). now rewrite Httl. }
  split; [exact Hset|]. split.
  - rewrite Hset. apply Forall_forall. intros p Hin.
    apply In_Map_set in Hin. destruct Hin as [-> | Hin]; [reflexivity|].
    rewrite Forall_forall in Hinf. now apply Hinf.
  - intro Hnew. rewrite Hset. unfold Map_size.
    rewrite length_Map_set, Hnew. lia.
Qed.
End CallFacts.

(** ** Canonical keys of primitive values *)

(** The escape of one code unit can be read back, whatever follows it. *)
Lemma unquote_quote_char (c : ascii) (r : string) :
  unquote_unit (Js.quote_char c ++ r)%string = Some (c, r).
Proof.
  destruct c as [[] [] [] [] [] [] [] []]; reflexivity.
Qed.

Lemma quote_body_inj (s t r r' : string) :
  (Js.quote_body s ++ String Js.dquote r)%string =
  (Js.quote_body t ++ String Js.dquote r')%string ->
  s = t /\ r = r'.
Proof.
  revert t. induction s as [|c s IH]; intros [|d t]; simpl; intro H.
  - injection H as ->. now split.
  - apply (f_equal unquote_unit) in H.
    rewrite string_app_assoc, unquote_quote_char in H. discriminate.
  - apply (f_equal unquote_unit) in H.
    rewrite string_app_assoc, unquote_quote_char in H. discriminate.
  - apply (f_equal unquote_unit) in H.
    rewrite !string_app_assoc, !unquote_quote_char in H.
    injection H as -> H. destruct (IH t H) as [-> ->]. now split.
Qed.

Lemma quote_inj (s t : string) : Js.quote s = Js.quote t -> s = t.
Proof.
  unfold Js.quote. intro H. injection H as H.
  now destruct (quote_body_inj s t EmptyString EmptyString H).
Qed.

Lemma to_int_not_nil (z : Z) :
  Z.to_int z <> Decimal.Pos Decimal.Nil /\ Z.to_int z <> Decimal.Neg Decimal.Nil.
Proof.
  destruct z as [|p|p]; simpl; split; try discriminate;
    intro H; injection H as H;
    exact (DecimalPos.Unsigned.to_uint_nonnil p H).
Qed.

Lemma number_to_string_inj (z z' : Z) :
  Js.number_to_string z = Js.number_to_string z' -> z = z'.
Proof.
  unfold Js.number_to_string. intro H.
  apply (f_equal NilZero.int_of_string) in H.
  destruct (to_int_not_nil z) as [H1 H2].
  destruct (to_int_not_nil z') as [H1' H2'].
  rewrite !NilZero.isi in H by assumption.
  injection H as H. now apply DecimalZ.to_int_inj.
Qed.

(** A number is written with a leading digit or minus sign. *)
Lemma number_to_string_head (z : Z) :
  exists c s, Js.number_to_string z = String c s /\
              In c ["-"; "0"; "1"; "2"; "3"; "4"; "5"; "6"; "7"; "8"; "9"]%char.
Proof.
  unfold Js.number_to_string.
  destruct (Z.to_int z) as [d|d]; destruct d; simpl;
    do 2 eexists; (split; [reflexivity|]); simpl; tauto.
Qed.

(** X14: the only canonical key that fails the test [if (soonestKey)] is
    [undefined]: whenever [JSON.stringify] returns a string the string is
    not empty, so the stored key is truthy. *)
Theorem X14_falsy_key_iff_undefined (key : Js.JsValue) :
  truthy (getCacheKey key) = false <-> getCacheKey key = None.
Proof.
  split.
  - intro Hf. destruct (getCacheKey key) as [s|] eqn:Hk; [|reflexivity].
    assert (Hs : string_key key) by (exists s; exact Hk).
    apply string_key_nonempty, nonempty_string_key_truthy in Hs.
    rewrite Hk in Hs. congruence.
  - intros ->. reflexivity.
Qed.

(** X15: primitive keys do not collide: two keys among [undefined],
    [null], the booleans, the integers between [-2^53] and [2^53] and the
    strings that have the same canonical key are the same key; in
    particular the string ["1"] and the number [1] are stored apart. *)
Theorem X15_primitive_keys_do_not_collide (k1 k2 : Js.JsValue) :
  primitive k1 = true -> primitive k2 = true ->
  getCacheKey k1 = getCacheKey k2 -> k1 = k2.
Proof.
  unfold getCacheKey.
  destruct k1 as [| |b1|z1|s1|xs1|fs1], k2 as [| |b2|z2|s2|xs2|fs2];
    cbn [primitive Js.JSON_stringify]; intros H1 H2 H;
    try discriminate H1; try discriminate H2;
    try reflexivity;
    repeat match goal with b : bool |- _ => destruct b end;
    unfold Js.quote, Js.dquote in H;
    try discriminate H; try reflexivity.
  all: try (injection H as H; f_equal;
            first [ now apply number_to_string_inj
                  | apply quote_inj; unfold Js.quote, Js.dquote;
                    now rewrite H ]).
  all: match type of H with
       | context [Js.number_to_string ?z] =>
           destruct (number_to_string_head z) as (c & s & Hn & Hc);
           rewrite Hn in H; inversion H; subst;
           simpl in Hc; intuition discriminate
       end.
Qed.

(** ** Scenarios for the further properties *)

(** X1 on ["a"] written twice, at 0 and at 5, and read at 10. *)
Lemma X1_witness :
  let ops := [OpSet 0 0 key_a 1; OpSet 5 5 key_a 2] in
  fst (get 10 key_a (run ops (useCache Z (config_of 1000 10)))) = Some 2
  /\ exists e,
       last_write (ttlMs (useCache Z (config_of 1000 10)))
                  (getCacheKey key_a) ops = Some e
       /\ value e = 2 /\ isExpired 10 e = false.
Proof.
  intro ops. split; [reflexivity|].
  apply (X1_get_returns_last_write Z (config_of 1000 10) ops 10 key_a 2).
  reflexivity.
Defined.

(** X2 on a cache where only ["a"] was ever written: ["b"] is absent. *)
Lemma X2_witness :
  let ops := [OpSet 0 0 key_a 1; OpGet 1 key_b; OpClear; OpSet 2 2 key_a 3] in
  get 3 key_b (run ops (useCache Z (config_of 1000 10))) =
  (None, run ops (useCache Z (config_of 1000 10))).
Proof.
  intro ops.
  apply (X2_never_written_key_is_absent Z (config_of 1000 10) ops 3 key_b).
  intros time t key' v Hin. simpl in Hin.
  destruct Hin as [H | [H | [H | [H | []]]]]; try discriminate H;
    injection H as _ _ <- _; vm_compute; intro Hk; discriminate Hk.
Defined.


(** X4 on capacity 1: [undefined] and ["a"] are stored, ["b"] is added
    and nothing leaves. *)
Lemma X4_witness :
  let h := run [OpSet 0 0 Js.JUndefined 1; OpSet 0 0 key_a 2]
               (useCache Z (config_of 1000 1)) in
  Map_wf (cacheRef h)
  /\ capacity h = Finite 1
  /\ Map_size (cacheRef (set 1 1 key_b 3 h)) = Map_size (cacheRef h) + 1.
Proof.
  intro h.
  assert (Hwf : Map_wf (cacheRef h)) by solve_wf.
  split; [exact Hwf|]. split; [reflexivity|].
  destruct (X4_falsy_head_blocks_eviction Z h 1 1 key_b 3 None
              {| value := 1; expiresAt := Finite 1000 |}
              [(getCacheKey key_a, {| value := 2; expiresAt := Finite 1000 |})]
              Hwf eq_refl eq_refl) as [_ Hgrow].
  - repeat constructor.
  - solve_live.
  - apply Hgrow. reflexivity.
Defined.

(** X5 on a cache whose only entry has expired when ["b"] is written,
    the clock moving from 60 to 61 during the call. *)
Lemma X5_witness :
  let h := run [OpSet 0 0 key_a 1] (useCache Z (config_of 50 10)) in
  num_lt (Finite 0) (ttlMs h) = true /\ Map_wf (cacheRef h)
  /\ nothing_expired 60 (set 60 61 key_b 2 h).
Proof.
  intro h.
  assert (Hpos : num_lt (Finite 0) (ttlMs h) = true) by reflexivity.
  assert (Hwf : Map_wf (cacheRef h)) by solve_wf.
  split; [exact Hpos|]. split; [exact Hwf|].
  apply (X5_set_leaves_no_expired_entry Z h 60 61 key_b 2 Hpos Hwf). lia.
Defined.

(** X6 on capacity 2: ["a"] written at 0, ["b"] at 100, then ["c"] at
    200 takes the place of ["a"]. *)
Lemma X6_witness :
  let h := run [OpSet 0 0 key_a 1; OpSet 100 100 key_b 2]
               (useCache Z (config_of 1000 2)) in
  Map_wf (cacheRef h)
  /\ cacheRef (set 200 200 key_c 3 h) =
       [(getCacheKey key_b, {| value := 2; expiresAt := Finite 1100 |})] ++
       [(getCacheKey key_c,
         {| value := 3; expiresAt := num_add (Finite 200) (ttlMs h) |})].
Proof.
  intro h.
  assert (Hwf : Map_wf (cacheRef h)) by solve_wf.
  split; [exact Hwf|].
  apply (X6_full_cache_drops_oldest Z h 200 200 key_c 3 (getCacheKey key_a)
           {| value := 1; expiresAt := Finite 1000 |}
           [(getCacheKey key_b, {| value := 2; expiresAt := Finite 1100 |})]
           Hwf eq_refl eq_refl eq_refl).
  - repeat constructor.
  - solve_live.
  - reflexivity.
  - reflexivity.
Defined.

(** X7 and X8 on a cache that holds ["a"] when ["b"] is written. *)
Lemma X7_witness :
  let h := run [OpSet 0 0 key_a 1] (useCache Z (config_of 1000 5)) in
  Map_wf (cacheRef h)
  /\ Map_get (getCacheKey key_a) (cacheRef (set 10 10 key_b 2 h)) =
     Some {| value := 1; expiresAt := Finite 1000 |}.
Proof.
  intro h.
  assert (Hwf : Map_wf (cacheRef h)) by solve_wf.
  split; [exact Hwf|].
  apply (X7_set_keeps_other_live_entries Z h 10 10 key_b 2); try exact Hwf.
  - vm_compute. intro H. discriminate H.
  - reflexivity.
  - reflexivity.
  - reflexivity.
Defined.

Lemma X8_witness :
  let h := run [OpSet 0 0 key_a 1] (useCache Z (config_of 1000 5)) in
  Map_wf (cacheRef h)
  /\ Map_get (getCacheKey key_a) (cacheRef h) =
       Some {| value := 1; expiresAt := Finite 1000 |}
  /\ isExpired 10 {| value := 1; expiresAt := Finite 1000 |} = false.
Proof.
  intro h.
  assert (Hwf : Map_wf (cacheRef h)) by solve_wf.
  split; [exact Hwf|].
  apply (X8_set_never_alters_other_entries Z h 10 10 key_b 2
           (getCacheKey key_a) {| value := 1; expiresAt := Finite 1000 |} Hwf).
  - vm_compute. intro H. discriminate H.
  - reflexivity.
Defined.

(** X10 on an entry that expired at 50, pruned at 60 and read at 70, and
    on a live one. *)
Lemma X10_witness :
  let h := run [OpSet 0 0 key_a 1; OpSet 40 40 key_b 2]
               (useCache Z (config_of 50 5)) in
  Map_wf (cacheRef h)
  /\ fst (get 70 key_a (pruneExpiredEntries 60 h)) = fst (get 70 key_a h)
  /\ fst (get 70 key_b (pruneExpiredEntries 60 h)) = fst (get 70 key_b h).
Proof.
  intro h.
  assert (Hwf : Map_wf (cacheRef h)) by solve_wf.
  split; [exact Hwf|]. split.
  - apply (X10_prune_invisible_to_reads Z h 60 70 key_a Hwf). lia.
  - apply (X10_prune_invisible_to_reads Z h 60 70 key_b Hwf). lia.
Defined.

(** X11 on a cache of two entries. *)
Lemma X11_witness :
  let h := run [OpSet 0 0 key_a 1; OpSet 40 40 key_b 2]
               (useCache Z (config_of 50 5)) in
  Map_wf (cacheRef h)
  /\ Map_size (cacheRef (set 60 60 key_c 3 h)) <= Map_size (cacheRef h) + 1.
Proof.
  intro h.
  assert (Hwf : Map_wf (cacheRef h)) by solve_wf.
  split; [exact Hwf|].
  apply (X11_size_changes_by_at_most_one Z h 60 60 key_c 3 Hwf).
Defined.

(** X12 on a cache built with [ttlMs = 0]. *)
Lemma X12_witness :
  num_le (ttlMs (useCache Z (config_of 0 10))) (Finite 0) = true
  /\ fst (get 5 key_a (set 5 5 key_a 1 (useCache Z (config_of 0 10)))) = None.
Proof.
  assert (Httl : num_le (ttlMs (useCache Z (config_of 0 10))) (Finite 0)
                 = true) by reflexivity.
  split; [exact Httl|].
  apply (X12_nonpositive_ttl_never_readable Z _ key_a 1 5 5 5 Httl). lia.
Defined.

(** X13 on pruning at 60 and then at 40. *)
Lemma X13_witness :
  let h := run [OpSet 0 0 key_a 1; OpSet 30 30 key_b 2]
               (useCache Z (config_of 50 5)) in
  Map_wf (cacheRef h)
  /\ pruneExpiredEntries 40 (pruneExpiredEntries 60 h) =
     pruneExpiredEntries (Z.max 60 40) h.
Proof.
  intro h.
  assert (Hwf : Map_wf (cacheRef h)) by solve_wf.
  split; [exact Hwf|].
  apply (X13_prune_twice Z h 60 40 Hwf).
Defined.

(** X15 on the number [1] and the string ["1"]. *)
Lemma X15_witness :
  primitive (Js.JNum 1) = true
  /\ Js.JNum 1 = Js.JNum 1
  /\ getCacheKey (Js.JStr "1") <> getCacheKey (Js.JNum 1).
Proof.
  split; [reflexivity|]. split.
  - apply (X15_primitive_keys_do_not_collide (Js.JNum 1) (Js.JNum 1));
      reflexivity.
  - intro H.
    apply (X15_primitive_keys_do_not_collide (Js.JStr "1") (Js.JNum 1)) in H;
      [discriminate H | reflexivity | reflexivity].
Defined.

(** X16 on the overwrite of C7's run: capacity 2, ["k"] and ["a"]
    stored, ["a"] written again at 20. *)
Lemma X16_witness :
  let h := run [OpSet 0 0 key_k 1; OpSet 10 10 key_a 2]
               (useCache Z (config_of 100 2)) in
  Map_wf (cacheRef h)
  /\ Map_size (cacheRef (set 20 20 key_a 3 h)) = Map_size (cacheRef h) - 1.
Proof.
  intro h.
  assert (Hwf : Map_wf (cacheRef h)) by solve_wf.
  split; [exact Hwf|].
  apply (X16_overwrite_at_capacity_evicts Z h 20 20 key_a 3 (getCacheKey key_k)
           {| value := 1; expiresAt := Finite 100 |}
           [(getCacheKey key_a, {| value := 2; expiresAt := Finite 110 |})]
           {| value := 2; expiresAt := Finite 110 |}
           Hwf eq_refl eq_refl eq_refl).
  - repeat constructor.
  - solve_live.
  - reflexivity.
  - vm_compute. intro H. discriminate H.
  - reflexivity.
Defined.

(** X17 on the same cache, ["k"] written again at 20. *)
Lemma X17_witness :
  let h := run [OpSet 0 0 key_k 1; OpSet 10 10 key_a 2]
               (useCache Z (config_of 100 2)) in
  Map_wf (cacheRef h)
  /\ cacheRef (set 20 20 key_k 3 h) =
       [(getCacheKey key_a, {| value := 2; expiresAt := Finite 110 |})] ++
       [(getCacheKey key_k,
         {| value := 3; expiresAt := num_add (Finite 20) (ttlMs h) |})].
Proof.
  intro h.
  assert (Hwf : Map_wf (cacheRef h)) by solve_wf.
  split; [exact Hwf|].
  apply (X17_overwrite_of_oldest_moves_it_last Z h 20 20 key_k 3
           {| value := 1; expiresAt := Finite 100 |}
           [(getCacheKey key_a, {| value := 2; expiresAt := Finite 110 |})]
           Hwf eq_refl eq_refl eq_refl).
  - repeat constructor.
  - solve_live.
  - reflexivity.
Defined.

(** X18 on [{ttlMs: Infinity, capacity: 1}]: ["a"] is stored, ["b"] is
    added and the map holds two entries. *)
Lemma X18_witness :
  let h := run [OpSet 0 0 key_a 1] (useCache Z (config_forever 1)) in
  Map_wf (cacheRef h)
  /\ capacity h = Finite 1
  /\ Map_size (cacheRef (set 1 1 key_b 2 h)) = Map_size (cacheRef h) + 1.
Proof.
  intro h.
  assert (Hwf : Map_wf (cacheRef h)) by solve_wf.
  split; [exact Hwf|]. split; [reflexivity|].
  destruct (X18_infinite_ttl_disables_eviction Z h 1 1 key_b 2 Hwf eq_refl)
    as (_ & _ & Hgrow).
  - repeat constructor.
  - apply Hgrow. reflexivity.
Defined.
